(** * The tiktoken plugin registry ([tiktoken_ai.py])

    A shallow embedding of the process-wide encoding registry: the
    memoised plugin scan ([_available_plugin_modules]), the constructor
    table builder ([_find_constructors]) and the two public operations
    ([get_encoding], [list_encoding_names]).

    The module globals [ENCODINGS], [ENCODING_CONSTRUCTORS] and the
    [functools.lru_cache] slot are fields of an explicit [State]; every
    Python function is a computation in a state-and-exception monad whose
    state survives a raised exception, as Python's globals do.  The
    collaborators the registry calls but does not define ([pkgutil],
    [importlib], the plugin factories and the [Encoding] constructor) are
    gathered in a [World] when they do not call back into the registry,
    and in a [Reentrant] when they may: there the operations are the
    same code ([get_encoding_with] and the like), with the nested calls
    served one level further down ([nested_at]).  Calls to [logger] do
    not touch the registry and are left out.

    Calls made one after the other are runs of the monad ([run],
    [run_at]); calls made by several threads are runs of a machine that
    interleaves them and models [_lock] ([step_thread],
    [step_thread_at]).

    Layout: the model; summaries of the code in closed form and the
    invariants; example worlds; then the lemmas and the theorems. *)

From Stdlib Require Import Ascii.
From stdpp Require Import gmap strings list fin_maps.

Open Scope string_scope.
Open Scope list_scope.
Open Scope nat_scope.


(** ** Exceptions, collaborators and state *)

(** The exception classes the source names, and one constructor for all
    the others ([kind] is the name of the class, none of the three
    above nor a subclass of them).  An exception is its class and its
    message, the argument it was built with; what Python attaches to it
    when it is raised ([__traceback__], [__context__], and the
    [__cause__] of line 55) is not part of the model. *)
Inductive exn : Type :=
| ValueError (msg : string)
| AttributeError (msg : string)
| ImportError (msg : string)
| OtherError (kind msg : string).

#[global] Instance exn_eq_dec : EqDecision exn.
Proof. solve_decision. Defined.

(** The Python class of an exception, which an [except] clause tests. *)
Definition class_name (e : exn) : string :=
  match e with
  | ValueError _ => "ValueError"
  | AttributeError _ => "AttributeError"
  | ImportError _ => "ImportError"
  | OtherError kind _ => kind
  end.

(** A reference to a zero-argument factory ([Callable[[], dict[str, Any]]]). *)
Definition factory : Type := nat.

(** The keyword arguments a factory returns ([dict[str, Any]]); the
    registry passes them on and never looks inside. *)
Definition params : Type := list (string * string).

(** An [Encoding] object: [enc_id] is the identity of the object (two
    references are to the same object iff the ids agree), [enc_params]
    what it was built from. *)
Record Encoding : Type := mkEncoding { enc_id : nat; enc_params : params }.

#[global] Instance Encoding_eq_dec : EqDecision Encoding.
Proof. solve_decision. Defined.

(** What the outside world did, in order.  A load counter on a plugin
    and a construction counter on an encoding are counts over this log. *)
Inductive event : Type :=
| Scan                                          (* pkgutil.iter_modules ran *)
| Import (mod_name : string)                    (* importlib.import_module(mod_name) *)
| Factory (encoding_name : string) (constructor : factory) (ok : bool)
                                                (* constructor() at line 81 *)
| Builder (encoding_name : string) (ok : bool). (* Encoding( **params ) at line 81 *)

#[global] Instance event_eq_dec : EqDecision event.
Proof. solve_decision. Defined.

(** A loaded plugin module.  [mod_ENCODING_CONSTRUCTORS] is [None] when
    reading [mod.ENCODING_CONSTRUCTORS] or calling [.items()] on it
    raises [AttributeError]; otherwise it is the items of the mapping in
    iteration order. *)
Record module : Type :=
  mkModule { mod_ENCODING_CONSTRUCTORS : option (list (string * factory)) }.

(** The collaborators, when they do not call back into the registry
    (those that do are a [Reentrant], below).  Factories and the builder
    may answer differently from one call to the next: their outcome is a
    function of the log so far. *)
Record World : Type := mkWorld {
  iter_modules : list string;
  import_module : string → exn + module;
  call_constructor : factory → list event → exn + params;
  Encoding_init : params → list event → option exn;
}.

(** A Python [dict] whose iteration order matters: items in insertion
    order, keys pairwise distinct. *)
Definition dict (V : Type) : Type := list (string * V).

Definition dict_keys {V} (d : dict V) : list string := d.*1.

Definition dict_contains {V} (k : string) (d : dict V) : bool :=
  bool_decide (k ∈ dict_keys d).

Fixpoint dict_get {V} (k : string) (d : dict V) : option V :=
  match d with
  | [] => None
  | (k', v) :: d' => if decide (k = k') then Some v else dict_get k d'
  end.

(** [d[k] = v]: replaces the value in place when [k] is a key, appends
    the item otherwise. *)
Fixpoint dict_set {V} (k : string) (v : V) (d : dict V) : dict V :=
  match d with
  | [] => [(k, v)]
  | (k', v') :: d' =>
      if decide (k = k') then (k', v) :: d' else (k', v') :: dict_set k v d'
  end.

Record State : Type := mkState {
  ENCODINGS : gmap string Encoding;
  ENCODING_CONSTRUCTORS : option (dict factory);
  plugin_modules_cache : option (list string);  (* the lru_cache slot *)
  trace : list event;
}.

Definition initial : State :=
  {| ENCODINGS := ∅; ENCODING_CONSTRUCTORS := None;
     plugin_modules_cache := None; trace := [] |}.

Definition set_ENCODINGS (m : gmap string Encoding) (s : State) : State :=
  {| ENCODINGS := m; ENCODING_CONSTRUCTORS := ENCODING_CONSTRUCTORS s;
     plugin_modules_cache := plugin_modules_cache s; trace := trace s |}.

Definition set_ENCODING_CONSTRUCTORS (t : option (dict factory)) (s : State) : State :=
  {| ENCODINGS := ENCODINGS s; ENCODING_CONSTRUCTORS := t;
     plugin_modules_cache := plugin_modules_cache s; trace := trace s |}.

Definition set_plugin_modules_cache (c : option (list string)) (s : State) : State :=
  {| ENCODINGS := ENCODINGS s; ENCODING_CONSTRUCTORS := ENCODING_CONSTRUCTORS s;
     plugin_modules_cache := c; trace := trace s |}.

Definition add_event (e : event) (s : State) : State :=
  {| ENCODINGS := ENCODINGS s; ENCODING_CONSTRUCTORS := ENCODING_CONSTRUCTORS s;
     plugin_modules_cache := plugin_modules_cache s; trace := trace s ++ [e] |}.

(** ** The monad *)

Definition M (A : Type) : Type := State → State * (exn + A).

Definition ret {A} (a : A) : M A := λ s, (s, inr a).

Definition raise {A} (e : exn) : M A := λ s, (s, inl e).

Definition bind {A B} (m : M A) (k : A → M B) : M B :=
  λ s, match m s with
       | (s', inr a) => k a s'
       | (s', inl e) => (s', inl e)
       end.

(** [try: m except e: h e] *)
Definition try_except {A} (m : M A) (h : exn → M A) : M A :=
  λ s, match m s with
       | (s', inr a) => (s', inr a)
       | (s', inl e) => h e s'
       end.

Definition read {A} (f : State → A) : M A := λ s, (s, inr (f s)).

Definition update (f : State → State) : M unit := λ s, (f s, inr tt).

#[global] Instance M_ret : MRet M := @ret.
#[global] Instance M_bind : MBind M := λ A B k m, bind m k.

(** [for x in xs: body x] *)
Fixpoint for_each {A} (xs : list A) (body : A → M unit) : M unit :=
  match xs with
  | [] => ret tt
  | x :: xs' => body x ;; for_each xs' body
  end.

(** ** Messages *)

(** [repr] of a [str], as CPython's [unicode_repr] computes it.  A
    [string] here is a sequence of code points below 256, one per
    character.  The quote is the single quote, unless the string holds a
    single quote and no double quote; the quote and the backslash are
    escaped with a backslash, tab, line feed and carriage return are
    written [\t], [\n] and [\r], and every other code point that is not
    printable is written [\xhh] with two lower-case hexadecimal digits.
    Below 256 the printable code points are 32 to 126 and 161 to 255
    except 173. *)
Definition single_quote : ascii := "'"%char.
Definition double_quote : ascii := "034"%char.
Definition backslash : ascii := "\"%char.

Definition hex_digit (n : N) : ascii :=
  default "0"%char
    (String.get (N.to_nat n) "0123456789abcdef").

Definition printable (c : ascii) : bool :=
  let n := N_of_ascii c in
  ((32 <=? n) && (n <? 127) || (161 <=? n) && negb (n =? 173))%N.

Definition repr_char (quote c : ascii) : string :=
  let n := N_of_ascii c in
  if bool_decide (c = quote) || bool_decide (c = backslash)
  then String backslash (String c "")
  else if bool_decide (c = "009"%char) then "\t"
  else if bool_decide (c = "010"%char) then "\n"
  else if bool_decide (c = "013"%char) then "\r"
  else if printable c then String c ""
  else String backslash
         (String "x"%char
            (String (hex_digit (n / 16)%N) (String (hex_digit (n mod 16)%N) ""))).

Fixpoint contains (c : ascii) (s : string) : bool :=
  match s with
  | EmptyString => false
  | String c' s' => bool_decide (c' = c) || contains c s'
  end.

Fixpoint escape (quote : ascii) (s : string) : string :=
  match s with
  | EmptyString => ""
  | String c s' => repr_char quote c +:+ escape quote s'
  end.

Definition quote_of (s : string) : ascii :=
  if contains single_quote s && negb (contains double_quote s)
  then double_quote else single_quote.

Definition repr_str (s : string) : string :=
  String (quote_of s) (escape (quote_of s) s +:+ String (quote_of s) "").

(** A string whose [repr] is the string itself between single quotes:
    printable characters other than the single quote and the backslash. *)
Definition plain_char (c : ascii) : bool :=
  printable c && negb (bool_decide (c = single_quote)) &&
  negb (bool_decide (c = backslash)).

Fixpoint plain_name (s : string) : bool :=
  match s with
  | EmptyString => true
  | String c s' => plain_char c && plain_name s'
  end.

Fixpoint join (sep : string) (l : list string) : string :=
  match l with
  | [] => ""
  | [x] => x
  | x :: l' => x +:+ sep +:+ join sep l'
  end.

Definition repr_list (l : list string) : string :=
  "[" +:+ join ", " (repr_str <$> l) +:+ "]".

Definition duplicate_msg (enc_name mod_name : string) : string :=
  "Duplicate encoding name " +:+ enc_name +:+ " in tiktoken plugin " +:+ mod_name.

Definition malformed_msg (mod_name : string) : string :=
  "tiktoken plugin " +:+ mod_name +:+ " does not define ENCODING_CONSTRUCTORS".

Definition unknown_msg (encoding_name : string) (available_plugins : list string) : string :=
  "Unknown encoding " +:+ encoding_name +:+ ". Plugins found: " +:+
  repr_list available_plugins.

(** ** The registry *)

Section Registry.

Variable w : World.

(** Lines 21-29.  The first call scans and fills the [lru_cache] slot;
    later calls return the cached list. *)
Definition _available_plugin_modules : M (list string) :=
  c ← read plugin_modules_cache ;
  match c with
  | Some mods => ret mods
  | None =>
      let mods := iter_modules w in
      update (add_event Scan) ;;
      update (set_plugin_modules_cache (Some mods)) ;;
      ret mods
  end.

(** The global [ENCODING_CONSTRUCTORS] used as a mapping: Python raises
    [TypeError] on [None]. *)
Definition the_constructors : M (dict factory) :=
  t ← read ENCODING_CONSTRUCTORS ;
  match t with
  | Some d => ret d
  | None => raise (OtherError "TypeError" "argument of type 'NoneType' is not iterable")
  end.

(** Line 41. *)
Definition importlib_import_module (mod_name : string) : M module :=
  update (add_event (Import mod_name)) ;;
  match import_module w mod_name with
  | inr m => ret m
  | inl e => raise e
  end.

(** Line 42 (and the [.items()] of line 43). *)
Definition get_constructors (m : module) : M (list (string * factory)) :=
  match mod_ENCODING_CONSTRUCTORS m with
  | Some items => ret items
  | None => raise (AttributeError "ENCODING_CONSTRUCTORS")
  end.

(** Lines 44-49: the body of the inner loop. *)
Definition register (mod_name : string) (item : string * factory) : M unit :=
  let '(enc_name, constructor) := item in
  d ← the_constructors ;
  if dict_contains enc_name d
  then raise (ValueError (duplicate_msg enc_name mod_name))
  else update (set_ENCODING_CONSTRUCTORS (Some (dict_set enc_name constructor d))).

(** Lines 40-58: the body of the outer loop, with its two handlers. *)
Definition load_plugin (mod_name : string) : M unit :=
  try_except
    (m ← importlib_import_module mod_name ;
     constructors ← get_constructors m ;
     for_each constructors (register mod_name))
    (λ e, match e with
          | AttributeError _ => raise (ValueError (malformed_msg mod_name))
          | ImportError _ => raise e
          | _ => raise e
          end).

(** Lines 31-58.  A single thread always gets the re-entrant lock at
    once and gives it back on either exit, so [with _lock] leaves no
    trace here; the lock is modelled with the threads, below. *)
Definition _find_constructors : M unit :=
  t ← read ENCODING_CONSTRUCTORS ;
  match t with
  | Some _ => ret tt
  | None =>
      update (set_ENCODING_CONSTRUCTORS (Some [])) ;;
      mods ← _available_plugin_modules ;
      for_each mods load_plugin
  end.

(** Lines 62-63 and again 66-67: the cache lookup. *)
Definition cached (encoding_name : string) : M (option Encoding) :=
  c ← read ENCODINGS ;
  ret (c !! encoding_name).

(** Lines 69-71 (and 89-91). *)
Definition ensure_constructors : M unit :=
  t ← read ENCODING_CONSTRUCTORS ;
  match t with
  | None =>
      _find_constructors ;;
      t' ← read ENCODING_CONSTRUCTORS ;
      if t' is None then raise (OtherError "AssertionError" "") else ret tt
  | Some _ => ret tt
  end.

(** Line 81, first half: [constructor()]. *)
Definition invoke_factory (encoding_name : string) (constructor : factory) : M params :=
  tr ← read trace ;
  match call_constructor w constructor tr with
  | inr p => update (add_event (Factory encoding_name constructor true)) ;; ret p
  | inl e => update (add_event (Factory encoding_name constructor false)) ;; raise e
  end.

(** Line 81, second half: [Encoding( **params )].  The new object takes
    the length of the log as its identity, which no earlier object has. *)
Definition new_Encoding (encoding_name : string) (p : params) : M Encoding :=
  tr ← read trace ;
  match Encoding_init w p tr with
  | None => update (add_event (Builder encoding_name true)) ;;
            ret (mkEncoding (length tr) p)
  | Some e => update (add_event (Builder encoding_name false)) ;; raise e
  end.

(** Lines 73-81. *)
Definition construct (encoding_name : string) : M Encoding :=
  d ← the_constructors ;
  match dict_get encoding_name d with
  | None =>
      available_plugins ← _available_plugin_modules ;
      raise (ValueError (unknown_msg encoding_name available_plugins))
  | Some constructor =>
      p ← invoke_factory encoding_name constructor ;
      new_Encoding encoding_name p
  end.

(** Line 82. *)
Definition publish (encoding_name : string) (enc : Encoding) : M unit :=
  update (λ s, set_ENCODINGS (<[encoding_name := enc]> (ENCODINGS s)) s).

(** Lines 66-84: what [get_encoding] does while it holds the lock. *)
Definition get_encoding_locked (encoding_name : string) : M Encoding :=
  hit ← cached encoding_name ;
  match hit with
  | Some enc => ret enc
  | None =>
      ensure_constructors ;;
      enc ← construct encoding_name ;
      publish encoding_name enc ;;
      ret enc
  end.

(** Lines 60-84. *)
Definition get_encoding (encoding_name : string) : M Encoding :=
  hit ← cached encoding_name ;
  match hit with
  | Some enc => ret enc
  | None => get_encoding_locked encoding_name
  end.

(** Lines 86-94. *)
Definition list_encoding_names : M (list string) :=
  ensure_constructors ;;
  d ← the_constructors ;
  ret (dict_keys d).

End Registry.

(** ** Calls and runs *)

(** A call of one of the two public operations, and what it returns. *)
Inductive call : Type :=
| Get_encoding (encoding_name : string)
| List_encoding_names.

Inductive value : Type :=
| An_encoding (enc : Encoding)
| Some_names (names : list string).

Definition perform (w : World) (c : call) : M value :=
  match c with
  | Get_encoding encoding_name =>
      enc ← get_encoding w encoding_name ; ret (An_encoding enc)
  | List_encoding_names =>
      names ← list_encoding_names w ; ret (Some_names names)
  end.

(** The state after a call, whether it returned or raised, and after a
    sequence of calls made one after the other by one thread. *)
Definition after (w : World) (c : call) (s : State) : State := (perform w c s).1.

Definition run (w : World) (calls : list call) (s : State) : State :=
  foldl (λ s c, after w c s) s calls.

(** ** Counters over the log *)

Definition is_import (e : event) : bool :=
  match e with Import _ => true | _ => false end.

Definition is_construction (e : event) : bool :=
  match e with Factory _ _ _ | Builder _ _ => true | _ => false end.

Definition is_factory_call (n : string) (e : event) : bool :=
  match e with Factory n' _ _ => bool_decide (n' = n) | _ => false end.

Definition is_builder_call (n : string) (e : event) : bool :=
  match e with Builder n' _ => bool_decide (n' = n) | _ => false end.

(** An attempt to construct [n] that raised, in the factory or in the
    builder. *)
Definition is_failed_attempt (n : string) (e : event) : bool :=
  match e with
  | Factory n' _ false | Builder n' false => bool_decide (n' = n)
  | _ => false
  end.

Definition is_built (n : string) (e : event) : bool :=
  match e with Builder n' true => bool_decide (n' = n) | _ => false end.

Definition count (p : event → bool) (tr : list event) : nat :=
  length (filter (λ e, p e = true) tr).

(** The items the plugins contribute, in enumeration order then
    registration order; a module that does not load or has no mapping
    contributes nothing. *)
Definition items_of (w : World) (mod_name : string) : list (string * factory) :=
  match import_module w mod_name with
  | inr m => default [] (mod_ENCODING_CONSTRUCTORS m)
  | inl _ => []
  end.

Definition contributed (w : World) (mods : list string) : list (string * factory) :=
  mods ≫= items_of w.

(** Every plugin loads and exposes a mapping. *)
Definition well_formed (w : World) (mod_name : string) : Prop :=
  ∃ items, import_module w mod_name = inr (mkModule (Some items)).

(** ** The loops of [_find_constructors] in closed form

    What the two loops leave behind, as pure functions of the table they
    start from: the table, and the exception if one was raised.  The
    module loop also counts the modules it tried to import. *)

Fixpoint merge_items (mod_name : string) (items : list (string * factory))
    (d : dict factory) : dict factory * option exn :=
  match items with
  | [] => (d, None)
  | (enc_name, constructor) :: items' =>
      if dict_contains enc_name d
      then (d, Some (ValueError (duplicate_msg enc_name mod_name)))
      else merge_items mod_name items' (dict_set enc_name constructor d)
  end.

Definition merge_module (w : World) (mod_name : string) (d : dict factory)
    : dict factory * option exn :=
  match import_module w mod_name with
  | inl (AttributeError _) => (d, Some (ValueError (malformed_msg mod_name)))
  | inl e => (d, Some e)
  | inr m =>
      match mod_ENCODING_CONSTRUCTORS m with
      | None => (d, Some (ValueError (malformed_msg mod_name)))
      | Some items => merge_items mod_name items d
      end
  end.

Fixpoint merge_modules (w : World) (mods : list string) (d : dict factory)
    : dict factory * nat * option exn :=
  match mods with
  | [] => (d, 0, None)
  | mod_name :: mods' =>
      match merge_module w mod_name d with
      | (d', Some e) => (d', 1, Some e)
      | (d', None) =>
          let '(d'', k, r) := merge_modules w mods' d' in (d'', S k, r)
      end
  end.

Definition verdict (r : option exn) : exn + unit :=
  match r with Some e => inl e | None => inr tt end.

Definition add_events (evs : list event) (s : State) : State :=
  {| ENCODINGS := ENCODINGS s; ENCODING_CONSTRUCTORS := ENCODING_CONSTRUCTORS s;
     plugin_modules_cache := plugin_modules_cache s; trace := trace s ++ evs |}.

(** ** Closed forms and invariants

    Summaries of the code above, used to state and prove the theorems. *)

Section Summaries.

Variable w : World.

(** The list the scan returns in a state, and the events it adds. *)
Definition scanned (s : State) : list string :=
  default (iter_modules w) (plugin_modules_cache s).

Definition scan_events (s : State) : list event :=
  if plugin_modules_cache s is None then [Scan] else [].

(** The whole build, from a table not yet set. *)
Definition built (s : State) : dict factory * nat * option exn :=
  merge_modules w (scanned s) [].

(** The state a build leaves, when it starts from a table not yet set. *)
Definition after_build (s : State) : State :=
  {| ENCODINGS := ENCODINGS s;
     ENCODING_CONSTRUCTORS := Some (built s).1.1;
     plugin_modules_cache := Some (scanned s);
     trace := trace s ++ scan_events s ++
              (Import <$> take (built s).1.2 (scanned s)) |}.

(** Lines 69-71 in closed form. *)
Definition ensured (s : State) : State :=
  if ENCODING_CONSTRUCTORS s is None then after_build s else s.

Definition ensured_verdict (s : State) : exn + unit :=
  if ENCODING_CONSTRUCTORS s is None then verdict (built s).2 else inr tt.

(** Lines 73-81, case by case. *)
Inductive construct_spec (n : string) (s : State)
    : State → exn + Encoding → Prop :=
| construct_unknown d :
    ENCODING_CONSTRUCTORS s = Some d →
    dict_get n d = None →
    construct_spec n s
      (set_plugin_modules_cache (Some (scanned s)) (add_events (scan_events s) s))
      (inl (ValueError (unknown_msg n (scanned s))))
| construct_factory_raises d f e :
    ENCODING_CONSTRUCTORS s = Some d →
    dict_get n d = Some f →
    call_constructor w f (trace s) = inl e →
    construct_spec n s (add_events [Factory n f false] s) (inl e)
| construct_builder_raises d f p e :
    ENCODING_CONSTRUCTORS s = Some d →
    dict_get n d = Some f →
    call_constructor w f (trace s) = inr p →
    Encoding_init w p (trace s ++ [Factory n f true]) = Some e →
    construct_spec n s (add_events [Factory n f true; Builder n false] s) (inl e)
| construct_built d f p :
    ENCODING_CONSTRUCTORS s = Some d →
    dict_get n d = Some f →
    call_constructor w f (trace s) = inr p →
    Encoding_init w p (trace s ++ [Factory n f true]) = None →
    construct_spec n s (add_events [Factory n f true; Builder n true] s)
      (inr (mkEncoding (S (length (trace s))) p)).

(** What a call of [get_encoding] that misses the cache leaves. *)
Inductive miss_spec (n : string) (s : State) : State → exn + Encoding → Prop :=
| miss_build_raises e :
    ensured_verdict s = inl e →
    miss_spec n s (ensured s) (inl e)
| miss_construct_raises s2 e :
    ensured_verdict s = inr tt →
    construct_spec n (ensured s) s2 (inl e) →
    miss_spec n s s2 (inl e)
| miss_constructed s2 enc :
    ensured_verdict s = inr tt →
    construct_spec n (ensured s) s2 (inr enc) →
    miss_spec n s (set_ENCODINGS (<[n := enc]> (ENCODINGS s2)) s2) (inr enc).

End Summaries.

(** An event predicate that ignores the scan and the imports. *)
Definition ignores_loading (p : event → bool) : Prop :=
  p Scan = false ∧ ∀ m, p (Import m) = false.

Definition imports (tr : list event) : list event :=
  filter (λ e, is_import e = true) tr.

Definition constructions (tr : list event) : list event :=
  filter (λ e, is_construction e = true) tr.

Section Invariant.

Variable w : World.

Definition cached_count (s : State) (n : string) : nat :=
  if ENCODINGS s !! n is Some _ then 1 else 0.

(** The table a build leaves when the scan is the world's: the same in
    every state. *)
Definition the_table : dict factory :=
  (merge_modules w (iter_modules w) []).1.1.

Record Inv (s : State) : Prop := mkInv {
  inv_scan : scanned w s = iter_modules w;
  inv_table : ∀ d, ENCODING_CONSTRUCTORS s = Some d → d = the_table;
  inv_cache : ∀ n enc, ENCODINGS s !! n = Some enc →
              ∃ d, ENCODING_CONSTRUCTORS s = Some d ∧ n ∈ dict_keys d;
  inv_factory : ∀ n, count (is_factory_call n) (trace s) =
                     count (is_failed_attempt n) (trace s) + cached_count s n;
  inv_built : ∀ n, count (is_built n) (trace s) = cached_count s n;
}.

End Invariant.

(** ** Threads

    [get_encoding] called from several threads at once.  Each thread
    makes one call and is at one of the program points below; a step of
    the machine lets one thread run from its point to the next, and any
    thread that is not blocked may be the one to move.  The points are
    placed so that every read or write of [ENCODINGS] from outside the
    lock is a step of its own.  Between acquiring and releasing [_lock] a
    thread is the only one to touch [ENCODING_CONSTRUCTORS], the
    [lru_cache] slot and the collaborators, so those stretches are single
    steps.  A thread arriving at line 65 never holds the lock already;
    the nested [with _lock] of line 34, taken by the thread that holds
    it, is where the lock being re-entrant matters and lies inside the
    step from [At_ensure]. *)

Inductive pc : Type :=
| At_fast_test                     (* line 62 *)
| At_fast_return                   (* line 63 *)
| At_acquire                       (* line 65, waiting for _lock *)
| At_recheck                       (* lines 66-67 *)
| At_ensure                        (* lines 69-71 *)
| At_construct                     (* lines 73-81 *)
| At_publish (enc : Encoding)      (* line 82 *)
| At_release (r : exn + Encoding)  (* leaving the with block, lines 67, 78, 84 *)
| Finished (r : exn + Encoding).   (* back in the caller *)

Record thread : Type := mkThread { th_name : string; th_pc : pc }.

Record Machine : Type := mkMachine {
  shared : State;
  lock_owner : option nat;         (* the thread holding _lock, if any *)
  threads : list thread;
}.

Definition goto (tid : nat) (th : thread) (p : pc) (s : State) (m : Machine)
    : Machine :=
  {| shared := s; lock_owner := lock_owner m;
     threads := <[tid := mkThread (th_name th) p]> (threads m) |}.

Definition set_lock_owner (o : option nat) (m : Machine) : Machine :=
  {| shared := shared m; lock_owner := o; threads := threads m |}.

Definition outcome {A} (r : exn + A) (next : A → pc) : pc :=
  match r with
  | inl e => At_release (inl e)
  | inr a => next a
  end.

Section Threads.

Variable w : World.

(** One step of thread [tid]; [None] when it is blocked, has finished or
    does not exist. *)
Definition step_thread (tid : nat) (m : Machine) : option Machine :=
  th ← threads m !! tid;
  let n := th_name th in
  let s := shared m in
  match th_pc th with
  | At_fast_test =>
      Some (goto tid th
              (if ENCODINGS s !! n is Some _ then At_fast_return else At_acquire)
              s m)
  | At_fast_return =>
      Some (goto tid th
              (Finished (match ENCODINGS s !! n with
                         | Some enc => inr enc
                         | None => inl (OtherError "KeyError" n)
                         end))
              s m)
  | At_acquire =>
      match lock_owner m with
      | None => Some (set_lock_owner (Some tid) (goto tid th At_recheck s m))
      | Some _ => None
      end
  | At_recheck =>
      Some (goto tid th
              (match ENCODINGS s !! n with
               | Some enc => At_release (inr enc)
               | None => At_ensure
               end)
              s m)
  | At_ensure =>
      let '(s', r) := ensure_constructors w s in
      Some (goto tid th (outcome r (λ _, At_construct)) s' m)
  | At_construct =>
      let '(s', r) := construct w n s in
      Some (goto tid th (outcome r At_publish) s' m)
  | At_publish enc =>
      Some (goto tid th (At_release (inr enc)) (publish n enc s).1 m)
  | At_release r =>
      Some (set_lock_owner None (goto tid th (Finished r) s m))
  | Finished _ => None
  end.

Definition step (m m' : Machine) : Prop :=
  ∃ tid, step_thread tid m = Some m'.

(** Run a schedule: the threads to move, in order.  [None] if it names a
    thread that cannot move when its turn comes. *)
Fixpoint exec (schedule : list nat) (m : Machine) : option Machine :=
  match schedule with
  | [] => Some m
  | tid :: schedule' => m' ← step_thread tid m; exec schedule' m'
  end.

End Threads.

(** [names] threads, one call each, started in state [s]. *)
Definition spawn (s : State) (names : list string) : Machine :=
  {| shared := s; lock_owner := None;
     threads := (λ n, mkThread n At_fast_test) <$> names |}.

Definition holds_lock (p : pc) : bool :=
  match p with
  | At_recheck | At_ensure | At_construct | At_publish _ | At_release _ => true
  | _ => false
  end.

Definition finished (p : pc) : bool :=
  match p with Finished _ => true | _ => false end.

(** The steps a thread still has to take, at most. *)
Definition remaining (p : pc) : nat :=
  match p with
  | At_fast_test => 7
  | At_acquire => 6
  | At_recheck => 5
  | At_ensure => 4
  | At_construct => 3
  | At_publish _ => 2
  | At_release _ => 1
  | At_fast_return => 1
  | Finished _ => 0
  end.

Definition measure (m : Machine) : nat :=
  sum_list (remaining ∘ th_pc <$> threads m).

(** An object built and not yet stored: the thread holding the lock is
    at line 82 with it. *)
Definition pending (n : string) (m : Machine) : nat :=
  match lock_owner m ≫= (threads m !!.) with
  | Some (mkThread n' (At_publish _)) => if decide (n' = n) then 1 else 0
  | _ => 0
  end.

(** Whether a thread is at line 82 with an object for [n]. *)
Definition publishing (n : string) (th : thread) : nat :=
  match th_pc th with
  | At_publish _ => if decide (th_name th = n) then 1 else 0
  | _ => 0
  end.

(** The machine after thread [tid] has moved to [p'], leaving the shared
    state [s'] and the lock with [o']. *)
Definition moved (tid : nat) (n : string) (p' : pc) (s' : State)
    (o' : option nat) (m : Machine) : Machine :=
  {| shared := s'; lock_owner := o';
     threads := <[tid := mkThread n p']> (threads m) |}.

(** What a thread at a given point may rely on in the shared state. *)
Definition thread_ok (s : State) (th : thread) : Prop :=
  let n := th_name th in
  match th_pc th with
  | At_fast_return => is_Some (ENCODINGS s !! n)
  | At_ensure => ENCODINGS s !! n = None
  | At_construct =>
      ENCODINGS s !! n = None ∧ is_Some (ENCODING_CONSTRUCTORS s)
  | At_publish _ =>
      ENCODINGS s !! n = None ∧
      ∃ d, ENCODING_CONSTRUCTORS s = Some d ∧ n ∈ dict_keys d
  | At_release (inr enc) | Finished (inr enc) => ENCODINGS s !! n = Some enc
  | _ => True
  end.

Record MInv (w : World) (m : Machine) : Prop := mkMInv {
  minv_owner : ∀ tid, lock_owner m = Some tid → is_Some (threads m !! tid);
  minv_lock : ∀ tid th, threads m !! tid = Some th →
              (holds_lock (th_pc th) = true ↔ lock_owner m = Some tid);
  minv_thread : ∀ tid th, threads m !! tid = Some th → thread_ok (shared m) th;
  minv_scan : scanned w (shared m) = iter_modules w;
  minv_table : ∀ d, ENCODING_CONSTRUCTORS (shared m) = Some d → d = the_table w;
  minv_cache : ∀ n enc, ENCODINGS (shared m) !! n = Some enc →
               ∃ d, ENCODING_CONSTRUCTORS (shared m) = Some d ∧ n ∈ dict_keys d;
  minv_factory : ∀ n, count (is_factory_call n) (trace (shared m)) =
                      count (is_failed_attempt n) (trace (shared m)) +
                      cached_count (shared m) n + pending n m;
  minv_built : ∀ n, count (is_built n) (trace (shared m)) =
                    cached_count (shared m) n + pending n m;
}.

(** A name whose construction cannot fail: the build succeeds, the name
    is registered, its factory always returns and the builder accepts
    what it returns. *)
Definition dependable (w : World) (n : string) : Prop :=
  (merge_modules w (iter_modules w) []).2 = None ∧
  ∃ f, dict_get n (the_table w) = Some f ∧
       ∀ tr, ∃ p, call_constructor w f tr = inr p ∧
                  ∀ tr', Encoding_init w p tr' = None.

(** In a machine whose threads call for a dependable name, no attempt
    for it has failed and no thread calling for it holds an exception. *)
Record DInv (n : string) (m : Machine) : Prop := mkDInv {
  dinv_failed : count (is_failed_attempt n) (trace (shared m)) = 0;
  dinv_thread : ∀ tid th, threads m !! tid = Some th → th_name th = n →
                ∀ e, th_pc th ≠ At_release (inl e) ∧ th_pc th ≠ Finished (inl e);
}.

(** ** Properties kept by every operation

    A property of the state is [stable] when the three ways in which the
    public operations change the state keep it: ensuring the table
    (lines 69-71), constructing (lines 73-81) and storing (line 82). *)

Definition is_scan (e : event) : bool :=
  match e with Scan => true | _ => false end.

Record stable (w : World) (P : State → Prop) : Prop := mkStable {
  stable_ensured : ∀ s, P s → P (ensured w s);
  stable_construct : ∀ n s s' r, P s → construct_spec w n s s' r → P s';
  stable_publish : ∀ n enc s,
    P s → P (set_ENCODINGS (<[n := enc]> (ENCODINGS s)) s);
}.

(** The scan has run exactly when the [lru_cache] slot is filled. *)
Definition scanned_once (s : State) : Prop :=
  count is_scan (trace s) = if plugin_modules_cache s is Some _ then 1 else 0.

(** The imports so far are the first modules of the scan, in order, and
    there are none before the build. *)
Definition imported_in_order (w : World) (s : State) : Prop :=
  scanned w s = iter_modules w ∧
  imports (trace s) `prefix_of` (Import <$> iter_modules w) ∧
  (ENCODING_CONSTRUCTORS s = None → imports (trace s) = []).

(** The table holds no name twice. *)
Definition names_distinct (s : State) : Prop :=
  ∀ d, ENCODING_CONSTRUCTORS s = Some d → NoDup (dict_keys d).

(** Every factory called was the one registered for the name asked for. *)
Definition factories_registered (s : State) : Prop :=
  ∀ n f ok, Factory n f ok ∈ trace s →
            ∃ d, ENCODING_CONSTRUCTORS s = Some d ∧ dict_get n d = Some f.

(** What lines 51-58 make of an exception raised in the [try] block of
    module [mod_name]. *)
Definition reported (mod_name : string) (e : exn) : exn :=
  match e with
  | AttributeError _ => ValueError (malformed_msg mod_name)
  | _ => e
  end.

(** The build stops at module [m] at the earliest: the modules
    enumerated before it are well formed and register distinct names. *)
Definition loads_up_to (w : World) (pre : list string) (m : string)
    (post : list string) : Prop :=
  iter_modules w = pre ++ m :: post ∧
  (∀ m', m' ∈ pre → well_formed w m') ∧
  NoDup (dict_keys (contributed w pre)).

(** In state [s] the build raises [e], and so does either public
    operation, whatever its argument. *)
Definition build_raises (w : World) (s : State) (e : exn) : Prop :=
  ∃ s', _find_constructors w s = (s', inl e) ∧
        ∀ c, perform w c s = (s', inl e).

(** One step of thread [tid], seen from the thread: its program point,
    the shared state and the owner of the lock, before and after. *)
Definition next (w : World) (tid : nat) (n : string)
    (x : pc * State * option nat) : option (pc * State * option nat) :=
  let '(p, s, o) := x in
  match p with
  | At_fast_test =>
      Some (if ENCODINGS s !! n is Some _ then At_fast_return else At_acquire,
            s, o)
  | At_fast_return =>
      Some (Finished (match ENCODINGS s !! n with
                      | Some enc => inr enc
                      | None => inl (OtherError "KeyError" n)
                      end), s, o)
  | At_acquire =>
      match o with
      | None => Some (At_recheck, s, Some tid)
      | Some _ => None
      end
  | At_recheck =>
      Some (match ENCODINGS s !! n with
            | Some enc => At_release (inr enc)
            | None => At_ensure
            end, s, o)
  | At_ensure =>
      let '(s', r) := ensure_constructors w s in
      Some (outcome r (λ _, At_construct), s', o)
  | At_construct =>
      let '(s', r) := construct w n s in
      Some (outcome r At_publish, s', o)
  | At_publish enc => Some (At_release (inr enc), (publish n enc s).1, o)
  | At_release r => Some (Finished r, s, None)
  | Finished _ => None
  end.

(** [k] steps in a row. *)
Fixpoint iterate (w : World) (tid : nat) (n : string) (k : nat)
    (x : pc * State * option nat) : option (pc * State * option nat) :=
  match k with
  | 0 => Some x
  | S k' => x' ← next w tid n x; iterate w tid n k' x'
  end.

Definition place (tid : nat) (n : string) (m : Machine)
    (x : pc * State * option nat) : Machine :=
  moved tid n x.1.1 x.1.2 x.2 m.

(** Every cached object was built before now, and no two names share
    one. *)
Definition objects_fresh (s : State) : Prop :=
  (∀ n enc, ENCODINGS s !! n = Some enc → enc_id enc < length (trace s)) ∧
  (∀ n n' enc enc', ENCODINGS s !! n = Some enc →
                    ENCODINGS s !! n' = Some enc' →
                    enc_id enc = enc_id enc' → n = n').

(** ** Collaborators that call back

    The plugin modules imported at line 41, the factories and the
    [Encoding] constructor called at line 81 are code the registry does
    not define, run by a thread that holds [_lock].  The lock is
    re-entrant, so that code may itself call [get_encoding] or
    [list_encoding_names]; the nested call takes the lock again and runs
    to its end before the collaborator goes on.  A [script] is what a
    collaborator does, as far as the registry can tell: it returns,
    raises, or calls a public operation and goes on with what the call
    returned or raised. *)

Inductive script (A : Type) : Type :=
| Returns (a : A)
| Raises (e : exn)
| Calls (c : call) (k : exn + value → script A).

Arguments Returns {A} a.
Arguments Raises {A} e.
Arguments Calls {A} c k.

(** The collaborators, when they may call back.  What a factory or the
    [Encoding] constructor does is a function of the log at the time it
    is called. *)
Record Reentrant : Type := mkReentrant {
  re_iter_modules : list string;
  re_import_module : string → script module;
  re_factory : factory → list event → script params;
  re_Encoding_init : params → list event → script unit;
}.

Definition returns_or_raises {A} (sc : script A) : bool :=
  match sc with Calls _ _ => false | _ => true end.

(** No collaborator calls back into the registry. *)
Definition no_callbacks (R : Reentrant) : Prop :=
  (∀ m, returns_or_raises (re_import_module R m) = true) ∧
  (∀ f tr, returns_or_raises (re_factory R f tr) = true) ∧
  (∀ p tr, returns_or_raises (re_Encoding_init R p tr) = true).

(** What a script that does not call back amounts to. *)
Definition result_of {A} (sc : script A) : exn + A :=
  match sc with
  | Returns a => inr a
  | Raises e => inl e
  | Calls _ _ => inl (OtherError "RuntimeError" "the collaborator calls back")
  end.

Definition script_of {A} (r : exn + A) : script A :=
  match r with inr a => Returns a | inl e => Raises e end.

(** A [World] is a [Reentrant] whose collaborators do not call back, and
    conversely when [no_callbacks] holds. *)
Definition without_callbacks (w : World) : Reentrant :=
  {| re_iter_modules := iter_modules w;
     re_import_module := λ m, script_of (import_module w m);
     re_factory := λ f tr, script_of (call_constructor w f tr);
     re_Encoding_init := λ p tr, match Encoding_init w p tr with
                                 | None => Returns tt
                                 | Some e => Raises e
                                 end |}.

Definition plain (R : Reentrant) : World :=
  {| iter_modules := re_iter_modules R;
     import_module := λ m, result_of (re_import_module R m);
     call_constructor := λ f tr, result_of (re_factory R f tr);
     Encoding_init := λ p tr, match result_of (re_Encoding_init R p tr) with
                              | inr _ => None
                              | inl e => Some e
                              end |}.

(** A computation that takes no entry out of the cache and binds no name
    in it to another object. *)
Definition keeps_entries {A} (m : M A) : Prop :=
  ∀ s, ENCODINGS s ⊆ ENCODINGS (m s).1.

(** What a nested call meets when Python's recursion limit is reached. *)
Definition too_deep : call → M value :=
  λ _, raise (OtherError "RecursionError" "maximum recursion depth exceeded").

(** Run a collaborator; [nested] is how the calls it makes are served. *)
Fixpoint run_script {A} (nested : call → M value) (sc : script A) : M A :=
  match sc with
  | Returns a => ret a
  | Raises e => raise e
  | Calls c k => λ s, let '(s', r) := nested c s in run_script nested (k r) s'
  end.

Section Reentrancy.

Variable R : Reentrant.

(** The calls the collaborators make are served by [nested]. *)
Variable nested : call → M value.

(** Line 41. *)
Definition importlib_import_module_with (mod_name : string) : M module :=
  update (add_event (Import mod_name)) ;;
  run_script nested (re_import_module R mod_name).

(** Lines 40-58. *)
Definition load_plugin_with (mod_name : string) : M unit :=
  try_except
    (m ← importlib_import_module_with mod_name ;
     constructors ← get_constructors m ;
     for_each constructors (register mod_name))
    (λ e, match e with
          | AttributeError _ => raise (ValueError (malformed_msg mod_name))
          | ImportError _ => raise e
          | _ => raise e
          end).

(** Lines 31-58. *)
Definition _find_constructors_with : M unit :=
  t ← read ENCODING_CONSTRUCTORS ;
  match t with
  | Some _ => ret tt
  | None =>
      update (set_ENCODING_CONSTRUCTORS (Some [])) ;;
      mods ← _available_plugin_modules (plain R) ;
      for_each mods load_plugin_with
  end.

(** Lines 69-71 (and 89-91). *)
Definition ensure_constructors_with : M unit :=
  t ← read ENCODING_CONSTRUCTORS ;
  match t with
  | None =>
      _find_constructors_with ;;
      t' ← read ENCODING_CONSTRUCTORS ;
      if t' is None then raise (OtherError "AssertionError" "") else ret tt
  | Some _ => ret tt
  end.

(** Line 81, first half: [constructor()], logged when it is over. *)
Definition invoke_factory_with (encoding_name : string) (constructor : factory)
    : M params :=
  λ s, match run_script nested (re_factory R constructor (trace s)) s with
       | (s', inr p) =>
           (add_event (Factory encoding_name constructor true) s', inr p)
       | (s', inl e) =>
           (add_event (Factory encoding_name constructor false) s', inl e)
       end.

(** Line 81, second half: [Encoding( **params )], logged when it is over;
    the new object takes the length of the log as its identity. *)
Definition new_Encoding_with (encoding_name : string) (p : params) : M Encoding :=
  λ s, match run_script nested (re_Encoding_init R p (trace s)) s with
       | (s', inr _) =>
           (add_event (Builder encoding_name true) s',
            inr (mkEncoding (length (trace s')) p))
       | (s', inl e) => (add_event (Builder encoding_name false) s', inl e)
       end.

(** Lines 73-81. *)
Definition construct_with (encoding_name : string) : M Encoding :=
  d ← the_constructors ;
  match dict_get encoding_name d with
  | None =>
      available_plugins ← _available_plugin_modules (plain R) ;
      raise (ValueError (unknown_msg encoding_name available_plugins))
  | Some constructor =>
      p ← invoke_factory_with encoding_name constructor ;
      new_Encoding_with encoding_name p
  end.

(** Lines 60-84. *)
Definition get_encoding_with (encoding_name : string) : M Encoding :=
  hit ← cached encoding_name ;
  match hit with
  | Some enc => ret enc
  | None =>
      hit ← cached encoding_name ;
      match hit with
      | Some enc => ret enc
      | None =>
          ensure_constructors_with ;;
          enc ← construct_with encoding_name ;
          publish encoding_name enc ;;
          ret enc
      end
  end.

(** Lines 86-94. *)
Definition list_encoding_names_with : M (list string) :=
  ensure_constructors_with ;;
  d ← the_constructors ;
  ret (dict_keys d).

Definition perform_with (c : call) : M value :=
  match c with
  | Get_encoding encoding_name =>
      enc ← get_encoding_with encoding_name ; ret (An_encoding enc)
  | List_encoding_names =>
      names ← list_encoding_names_with ; ret (Some_names names)
  end.

(** The threads: [step_thread] with such collaborators.  The calls a
    collaborator nests are made by the thread that holds the lock and
    belong to its step from [At_ensure] or [At_construct]; what they
    store in [ENCODINGS] is seen by the other threads when the step is
    over. *)
Definition step_thread_with (tid : nat) (m : Machine) : option Machine :=
  th ← threads m !! tid;
  let n := th_name th in
  let s := shared m in
  match th_pc th with
  | At_fast_test =>
      Some (goto tid th
              (if ENCODINGS s !! n is Some _ then At_fast_return else At_acquire)
              s m)
  | At_fast_return =>
      Some (goto tid th
              (Finished (match ENCODINGS s !! n with
                         | Some enc => inr enc
                         | None => inl (OtherError "KeyError" n)
                         end))
              s m)
  | At_acquire =>
      match lock_owner m with
      | None => Some (set_lock_owner (Some tid) (goto tid th At_recheck s m))
      | Some _ => None
      end
  | At_recheck =>
      Some (goto tid th
              (match ENCODINGS s !! n with
               | Some enc => At_release (inr enc)
               | None => At_ensure
               end)
              s m)
  | At_ensure =>
      let '(s', r) := ensure_constructors_with s in
      Some (goto tid th (outcome r (λ _, At_construct)) s' m)
  | At_construct =>
      let '(s', r) := construct_with n s in
      Some (goto tid th (outcome r At_publish) s' m)
  | At_publish enc =>
      Some (goto tid th (At_release (inr enc)) (publish n enc s).1 m)
  | At_release r =>
      Some (set_lock_owner None (goto tid th (Finished r) s m))
  | Finished _ => None
  end.

End Reentrancy.

(** How the calls of a collaborator are served when [depth] more calls
    may be nested before the recursion limit is reached: by the public
    operations one level further down. *)
Fixpoint nested_at (R : Reentrant) (depth : nat) : call → M value :=
  match depth with
  | 0 => too_deep
  | S depth' => perform_with R (nested_at R depth')
  end.

Section Depth.

Variable R : Reentrant.
Variable depth : nat.

Definition get_encoding_at (encoding_name : string) : M Encoding :=
  get_encoding_with R (nested_at R depth) encoding_name.

Definition list_encoding_names_at : M (list string) :=
  list_encoding_names_with R (nested_at R depth).

Definition perform_at (c : call) : M value :=
  perform_with R (nested_at R depth) c.

Definition after_at (c : call) (s : State) : State := (perform_at c s).1.

Definition run_at (calls : list call) (s : State) : State :=
  foldl (λ s c, after_at c s) s calls.

Definition step_thread_at (tid : nat) (m : Machine) : option Machine :=
  step_thread_with R (nested_at R depth) tid m.

Definition step_at (m m' : Machine) : Prop :=
  ∃ tid, step_thread_at tid m = Some m'.

Fixpoint exec_at (schedule : list nat) (m : Machine) : option Machine :=
  match schedule with
  | [] => Some m
  | tid :: schedule' => m' ← step_thread_at tid m; exec_at schedule' m'
  end.

End Depth.

(** ** Example worlds *)

Definition no_such_module (mod_name : string) : exn :=
  ImportError ("No module named " +:+ repr_str mod_name).

(** The world in which [pkgutil] finds the modules of [plugins], each
    importing as given. *)
Definition world_of (plugins : dict (exn + module))
    (call : factory → list event → exn + params)
    (init : params → list event → option exn) : World :=
  {| iter_modules := dict_keys plugins;
     import_module := λ m, default (inl (no_such_module m)) (dict_get m plugins);
     call_constructor := call;
     Encoding_init := init |}.

Definition plugin (items : list (string * factory)) : exn + module :=
  inr (mkModule (Some items)).

Definition reliable_factory : factory → list event → exn + params :=
  λ f _, inr [("name", "enc")].

Definition reliable_builder : params → list event → option exn :=
  λ _ _, None.

(** Two well-formed plugins with distinct names. *)
Definition two_plugins : World :=
  world_of [("tiktoken_ext.a", plugin [("x", 1); ("y", 2)]);
            ("tiktoken_ext.b", plugin [("z", 3)])]
           reliable_factory reliable_builder.

(** Two plugins that both register ["x"]. *)
Definition clashing_plugins : World :=
  world_of [("tiktoken_ext.a", plugin [("x", 1); ("y", 2)]);
            ("tiktoken_ext.b", plugin [("z", 3); ("x", 4)])]
           reliable_factory reliable_builder.

(** Two well-formed plugins, the second registering ["x"] again and
    then a name of its own. *)
Definition late_clash : World :=
  world_of [("tiktoken_ext.a", plugin [("x", 1)]);
            ("tiktoken_ext.b", plugin [("x", 4); ("z", 3)])]
           reliable_factory reliable_builder.

(** A plugin without [ENCODING_CONSTRUCTORS], after a well-formed one. *)
Definition malformed_plugin : World :=
  world_of [("tiktoken_ext.a", plugin [("x", 1)]);
            ("tiktoken_ext.b", inr (mkModule None));
            ("tiktoken_ext.c", plugin [("z", 3)])]
           reliable_factory reliable_builder.

(** A plugin whose import raises [ImportError]. *)
Definition broken_import : World :=
  world_of [("tiktoken_ext.a", plugin [("x", 1)]);
            ("tiktoken_ext.b", inl (ImportError "cannot import name 'blobfile'"))]
           reliable_factory reliable_builder.

(** A factory that raises on every call. *)
Definition failing_factory : World :=
  world_of [("tiktoken_ext.a", plugin [("x", 1)])]
           (λ _ _, inl (OtherError "ConnectionError" "download failed"))
           reliable_builder.

(** A builder that raises on every call. *)
Definition failing_builder : World :=
  world_of [("tiktoken_ext.a", plugin [("x", 1)])]
           reliable_factory
           (λ _ _, Some (OtherError "TypeError" "missing keyword argument")).

(** Two threads calling for ["x"] in [two_plugins]: both miss the cache
    on the fast path, the first builds and stores the object, the second
    finds it once it has the lock. *)
Definition interleaved : Machine :=
  default (spawn initial [])
    (exec two_plugins [0; 1; 0; 0; 0; 0; 0; 0; 1; 1; 1]
       (spawn initial ["x"; "x"])).

(** Two threads calling for ["x"] in [two_plugins], stopped while the
    first holds the lock with the object built and not yet stored, the
    second waiting at line 65. *)
Definition building : Machine :=
  default (spawn initial [])
    (exec two_plugins [0; 1; 0; 0; 0; 0] (spawn initial ["x"; "x"])).

(** After a call that cached ["x"]: a thread building ["y"] holds the
    lock while another is about to ask for ["x"]. *)
Definition waiting : Machine :=
  default (spawn initial [])
    (exec two_plugins [0; 0; 0]
       (spawn (run two_plugins [Get_encoding "x"] initial) ["y"; "x"])).

(** The depth at which the examples run: Python's default recursion
    limit, an upper bound on the calls that can be nested. *)
Definition recursion_limit : nat := 1000.

(** The plugin of the examples with callbacks: one module that
    registers ["x"] and ["y"], and a constructor that accepts whatever
    it is given. *)
Definition one_plugin (m : string) : script module :=
  if decide (m = "tiktoken_ext.a")
  then Returns (mkModule (Some [("x", 1); ("y", 2)]))
  else Raises (no_such_module m).

Definition accepting_builder : params → list event → script unit :=
  λ _ _, Returns tt.

(** A factory for ["x"] that needs ["y"] and, once ["y"] is built, asks
    the registry for ["x"] itself before it returns. *)
Definition calls_back : Reentrant :=
  {| re_iter_modules := ["tiktoken_ext.a"];
     re_import_module := one_plugin;
     re_factory := λ f tr,
       match f with
       | 1 => if bool_decide (Builder "y" true ∈ tr)
              then Returns [("name", "x")]
              else Calls (Get_encoding "y") (λ _,
                   Calls (Get_encoding "x") (λ _,
                   Returns [("name", "x")]))
       | _ => Returns [("name", "y")]
       end;
     re_Encoding_init := accepting_builder |}.

(** A factory for ["x"] that has the registry build ["y"] and then
    raises. *)
Definition calls_back_then_raises : Reentrant :=
  {| re_iter_modules := ["tiktoken_ext.a"];
     re_import_module := one_plugin;
     re_factory := λ f tr,
       match f with
       | 1 => Calls (Get_encoding "y") (λ _,
              Raises (OtherError "ConnectionError" "download failed"))
       | _ => Returns [("name", "y")]
       end;
     re_Encoding_init := accepting_builder |}.

(** A factory for ["x"] that, once ["y"] is built, returns; before
    that it has the registry build ["y"], then ["x"], and raises. *)
Definition stores_then_raises : Reentrant :=
  {| re_iter_modules := ["tiktoken_ext.a"];
     re_import_module := one_plugin;
     re_factory := λ f tr,
       match f with
       | 1 => if bool_decide (Builder "y" true ∈ tr)
              then Returns [("name", "x")]
              else Calls (Get_encoding "y") (λ _,
                   Calls (Get_encoding "x") (λ _,
                   Raises (OtherError "ConnectionError" "download failed")))
       | _ => Returns [("name", "y")]
       end;
     re_Encoding_init := accepting_builder |}.

(** Two plugin modules, the second of which, while it is imported, asks
    the registry for the encoding the first has registered. *)
Definition import_calls_back : Reentrant :=
  {| re_iter_modules := ["tiktoken_ext.a"; "tiktoken_ext.b"];
     re_import_module := λ m,
       if decide (m = "tiktoken_ext.a")
       then Returns (mkModule (Some [("x", 1)]))
       else Calls (Get_encoding "x") (λ _,
            Returns (mkModule (Some [("z", 3)])));
     re_factory := λ f tr, Returns [("name", "enc")];
     re_Encoding_init := accepting_builder |}.

(** ** Proof tools *)

Ltac run_monad :=
  repeat (progress (try unfold mbind; try unfold M_bind; try unfold mret;
                    try unfold M_ret; try unfold bind; try unfold ret;
                    try unfold raise; try unfold read; try unfold update;
                    try unfold try_except));
  cbn beta iota delta [fst snd].

(** Two hypotheses giving the same term two values: equate the values. *)
Ltac same_lhs :=
  simplify_eq;
  repeat (match goal with
          | H1 : ?x = _, H2 : ?x = _ |- _ => rewrite H1 in H2
          end; simplify_eq).

Lemma State_eq (s s' : State) :
  ENCODINGS s = ENCODINGS s' →
  ENCODING_CONSTRUCTORS s = ENCODING_CONSTRUCTORS s' →
  plugin_modules_cache s = plugin_modules_cache s' →
  trace s = trace s' →
  s = s'.
Proof. destruct s, s'; simpl; congruence. Qed.

Lemma dict_contains_true {V} k (d : dict V) :
  dict_contains k d = true ↔ k ∈ dict_keys d.
Proof. unfold dict_contains. apply bool_decide_eq_true. Qed.

Lemma dict_contains_false {V} k (d : dict V) :
  dict_contains k d = false ↔ k ∉ dict_keys d.
Proof. unfold dict_contains. apply bool_decide_eq_false. Qed.

Lemma dict_set_fresh {V} k (v : V) (d : dict V) :
  k ∉ dict_keys d → dict_set k v d = d ++ [(k, v)].
Proof.
  unfold dict_keys. induction d as [|[k' v'] d IH]; simpl; intros Hk; [done|].
  apply not_elem_of_cons in Hk as [Hne Hk].
  destruct (decide (k = k')); [done|]. by rewrite IH.
Qed.

Lemma dict_get_None {V} k (d : dict V) :
  dict_get k d = None ↔ k ∉ dict_keys d.
Proof.
  unfold dict_keys. induction d as [|[k' v'] d IH]; simpl.
  - split; [intros _; apply not_elem_of_nil | done].
  - destruct (decide (k = k')) as [->|Hne].
    + split; [done | intros H; exfalso; apply H; left].
    + rewrite IH, not_elem_of_cons. tauto.
Qed.

Lemma dict_get_Some_key {V} k (v : V) (d : dict V) :
  dict_get k d = Some v → k ∈ dict_keys d.
Proof.
  intros H. destruct (decide (k ∈ dict_keys d)) as [|Hn]; [done|].
  apply dict_get_None in Hn. congruence.
Qed.

Lemma dict_get_app_l {V} k (v : V) (d d' : dict V) :
  dict_get k d = Some v → dict_get k (d ++ d') = Some v.
Proof.
  induction d as [|[k' v'] d IH]; simpl; [done|].
  destruct (decide (k = k')); auto.
Qed.

Section Loops.

Variable w : World.

Lemma register_loop_eq mod_name items : ∀ s d,
  ENCODING_CONSTRUCTORS s = Some d →
  for_each items (register mod_name) s =
    (set_ENCODING_CONSTRUCTORS (Some (merge_items mod_name items d).1) s,
     verdict (merge_items mod_name items d).2).
Proof.
  induction items as [|[enc_name constructor] items IH]; intros s d Hd; simpl.
  - run_monad. f_equal. apply State_eq; simpl; congruence.
  - unfold register, the_constructors. run_monad. rewrite Hd.
    destruct (dict_contains enc_name d) eqn:Hin; simpl.
    + f_equal. apply State_eq; simpl; congruence.
    + rewrite (IH _ (dict_set enc_name constructor d)) by done.
      f_equal.
Qed.

Lemma merge_items_error mod_name items : ∀ d e,
  (merge_items mod_name items d).2 = Some e →
  ∃ enc_name, e = ValueError (duplicate_msg enc_name mod_name).
Proof.
  induction items as [|[k f] items IH]; intros d e H; simpl in *; [done|].
  destruct (dict_contains k d); simpl in *; [inversion H; eauto|].
  eapply IH; eauto.
Qed.

Lemma load_plugin_eq mod_name s d :
  ENCODING_CONSTRUCTORS s = Some d →
  load_plugin w mod_name s =
    (set_ENCODING_CONSTRUCTORS (Some (merge_module w mod_name d).1)
       (add_event (Import mod_name) s),
     verdict (merge_module w mod_name d).2).
Proof.
  intros Hd. unfold load_plugin, importlib_import_module, get_constructors,
    merge_module.
  run_monad.
  destruct (import_module w mod_name) as [e|[[items|]]]; simpl.
  - destruct e; simpl; f_equal; apply State_eq; simpl; congruence.
  - rewrite (register_loop_eq _ _ _ d) by (simpl; done).
    destruct (merge_items mod_name items d) as [d' [e|]] eqn:Hm; simpl; [|done].
    destruct (merge_items_error mod_name items d e) as [k ->]; [by rewrite Hm|].
    done.
  - f_equal. apply State_eq; simpl; congruence.
Qed.

Lemma load_loop_eq mods : ∀ s d,
  ENCODING_CONSTRUCTORS s = Some d →
  for_each mods (load_plugin w) s =
    (set_ENCODING_CONSTRUCTORS (Some (merge_modules w mods d).1.1)
       (add_events (Import <$> take (merge_modules w mods d).1.2 mods) s),
     verdict (merge_modules w mods d).2).
Proof.
  induction mods as [|mod_name mods IH]; intros s d Hd; simpl.
  - run_monad. f_equal. apply State_eq; simpl; try congruence.
    by rewrite app_nil_r.
  - run_monad. rewrite (load_plugin_eq _ _ d) by done.
    destruct (merge_module w mod_name d) as [d' [e|]]; simpl.
    + f_equal; apply State_eq; simpl; done.
    + rewrite (IH _ d') by done.
      destruct (merge_modules w mods d') as [[d'' k] r]; simpl.
      f_equal; apply State_eq; simpl; try done.
      by rewrite <- app_assoc.
Qed.

(** [_find_constructors] on a table already set is the early return of
    lines 35-36. *)
Lemma find_constructors_built s d :
  ENCODING_CONSTRUCTORS s = Some d → _find_constructors w s = (s, inr tt).
Proof. intros Hd. unfold _find_constructors. run_monad. by rewrite Hd. Qed.

Lemma available_plugin_modules_eq s :
  _available_plugin_modules w s =
    (set_plugin_modules_cache (Some (scanned w s)) (add_events (scan_events s) s),
     inr (scanned w s)).
Proof.
  unfold _available_plugin_modules, scanned, scan_events. run_monad.
  destruct (plugin_modules_cache s) eqn:Hc; simpl; f_equal;
    apply State_eq; simpl; try done. by rewrite app_nil_r.
Qed.

Lemma find_constructors_eq s :
  ENCODING_CONSTRUCTORS s = None →
  _find_constructors w s = (after_build w s, verdict (built w s).2).
Proof.
  intros Hd. unfold _find_constructors. run_monad. rewrite Hd.
  rewrite available_plugin_modules_eq. simpl.
  rewrite (load_loop_eq _ _ []) by done.
  f_equal; apply State_eq; simpl; try done. by rewrite app_assoc.
Qed.

Lemma ensure_constructors_eq s :
  ensure_constructors w s = (ensured w s, ensured_verdict w s).
Proof.
  unfold ensure_constructors, ensured, ensured_verdict. run_monad.
  destruct (ENCODING_CONSTRUCTORS s) eqn:Hd; [done|].
  rewrite find_constructors_eq by done.
  destruct (built w s) as [[d k] [e|]]; done.
Qed.

Lemma ensured_is_Some s : is_Some (ENCODING_CONSTRUCTORS (ensured w s)).
Proof.
  unfold ensured. destruct (ENCODING_CONSTRUCTORS s) eqn:Hd; simpl; eauto.
Qed.

Lemma ensured_ENCODINGS s : ENCODINGS (ensured w s) = ENCODINGS s.
Proof. unfold ensured. by destruct (ENCODING_CONSTRUCTORS s). Qed.

Lemma construct_cases n s d :
  ENCODING_CONSTRUCTORS s = Some d →
  construct_spec w n s (construct w n s).1 (construct w n s).2.
Proof.
  intros Hd. unfold construct, the_constructors. run_monad. rewrite Hd.
  destruct (dict_get n d) as [f|] eqn:Hf.
  - unfold invoke_factory, new_Encoding. run_monad.
    destruct (call_constructor w f (trace s)) as [e|p] eqn:Hc; simpl.
    + by eapply construct_factory_raises.
    + destruct (Encoding_init w p (trace s ++ [Factory n f true])) as [e|] eqn:Hb;
        simpl.
      * replace (add_event _ (add_event _ s))
          with (add_events [Factory n f true; Builder n false] s)
          by (apply State_eq; simpl; try done; by rewrite <- app_assoc).
        by eapply construct_builder_raises.
      * replace (add_event _ (add_event _ s))
          with (add_events [Factory n f true; Builder n true] s)
          by (apply State_eq; simpl; try done; by rewrite <- app_assoc).
        rewrite length_app, Nat.add_comm. simpl.
        by eapply construct_built.
  - rewrite available_plugin_modules_eq. simpl.
    by eapply construct_unknown.
Qed.

End Loops.

(** ** The public operations in closed form *)

Section Operations.

Variable w : World.

Lemma construct_spec_frame n s s' r :
  construct_spec w n s s' r →
  ENCODINGS s' = ENCODINGS s ∧
  ENCODING_CONSTRUCTORS s' = ENCODING_CONSTRUCTORS s.
Proof. by destruct 1. Qed.

Lemma get_encoding_hit n s enc :
  ENCODINGS s !! n = Some enc → get_encoding w n s = (s, inr enc).
Proof. intros H. unfold get_encoding, cached. run_monad. by rewrite H. Qed.

Lemma get_encoding_miss n s :
  ENCODINGS s !! n = None →
  get_encoding w n s =
    match ensured_verdict w s with
    | inl e => (ensured w s, inl e)
    | inr _ =>
        match construct w n (ensured w s) with
        | (s2, inl e) => (s2, inl e)
        | (s2, inr enc) =>
            (set_ENCODINGS (<[n := enc]> (ENCODINGS s2)) s2, inr enc)
        end
    end.
Proof.
  intros H. unfold get_encoding, get_encoding_locked, cached, publish.
  run_monad. rewrite H. run_monad. rewrite H. run_monad.
  rewrite ensure_constructors_eq.
  destruct (ensured_verdict w s); [done|].
  destruct (construct w n (ensured w s)) as [s2 [e|enc]]; done.
Qed.

Lemma list_encoding_names_eq s :
  list_encoding_names w s =
    match ensured_verdict w s with
    | inl e => (ensured w s, inl e)
    | inr _ =>
        (ensured w s,
         inr (dict_keys (default [] (ENCODING_CONSTRUCTORS (ensured w s)))))
    end.
Proof.
  unfold list_encoding_names, the_constructors. run_monad.
  rewrite ensure_constructors_eq.
  destruct (ensured_verdict w s); [done|].
  destruct (ensured_is_Some w s) as [d ->]. done.
Qed.

Lemma get_encoding_miss_cases n s :
  ENCODINGS s !! n = None →
  miss_spec w n s (get_encoding w n s).1 (get_encoding w n s).2.
Proof.
  intros H. rewrite get_encoding_miss by done.
  destruct (ensured_verdict w s) as [e|[]] eqn:Hv; simpl.
  - by constructor.
  - destruct (ensured_is_Some w s) as [d Hd].
    pose proof (construct_cases w n _ _ Hd) as Hc.
    destruct (construct w n (ensured w s)) as [s2 [e|enc]]; simpl in *.
    + by eapply miss_construct_raises.
    + by eapply miss_constructed.
Qed.

End Operations.

(** ** Collaborators that call back, and those that do not *)

Lemma run_script_leaf {A} nested (sc : script A) s :
  returns_or_raises sc = true → run_script nested sc s = (s, result_of sc).
Proof. by destruct sc. Qed.

Lemma for_each_ext {A} (f g : A → M unit) xs :
  (∀ x s, f x s = g x s) → ∀ s, for_each xs f s = for_each xs g s.
Proof.
  intros H. induction xs as [|x xs IH]; intros s; simpl; [done|].
  run_monad. rewrite H. destruct (g x s) as [s' [e|[]]]; [done|]. apply IH.
Qed.

(** Without callbacks the operations are those of the plain world. *)
Section Plain.

Variable R : Reentrant.
Variable nested : call → M value.
Hypothesis HR : no_callbacks R.

Lemma importlib_import_module_plain m s :
  importlib_import_module_with R nested m s =
    importlib_import_module (plain R) m s.
Proof.
  destruct HR as (Hi & _ & _). specialize (Hi m).
  unfold importlib_import_module_with, importlib_import_module. run_monad.
  rewrite run_script_leaf by done. simpl.
  by destruct (re_import_module R m).
Qed.

Lemma load_plugin_plain m s :
  load_plugin_with R nested m s = load_plugin (plain R) m s.
Proof.
  unfold load_plugin_with, load_plugin. run_monad.
  by rewrite importlib_import_module_plain.
Qed.

Lemma find_constructors_plain s :
  _find_constructors_with R nested s = _find_constructors (plain R) s.
Proof.
  unfold _find_constructors_with, _find_constructors. run_monad.
  destruct (ENCODING_CONSTRUCTORS s); [done|].
  destruct (_available_plugin_modules (plain R) _) as [s' [e|mods]]; [done|].
  apply for_each_ext. apply load_plugin_plain.
Qed.

Lemma ensure_constructors_plain s :
  ensure_constructors_with R nested s = ensure_constructors (plain R) s.
Proof.
  unfold ensure_constructors_with, ensure_constructors. run_monad.
  destruct (ENCODING_CONSTRUCTORS s); [done|].
  by rewrite find_constructors_plain.
Qed.

Lemma invoke_factory_plain n f s :
  invoke_factory_with R nested n f s = invoke_factory (plain R) n f s.
Proof.
  destruct HR as (_ & Hf & _). specialize (Hf f (trace s)).
  unfold invoke_factory_with, invoke_factory. run_monad.
  rewrite run_script_leaf by done. simpl.
  by destruct (re_factory R f (trace s)).
Qed.

Lemma new_Encoding_plain n p s :
  new_Encoding_with R nested n p s = new_Encoding (plain R) n p s.
Proof.
  destruct HR as (_ & _ & Hb). specialize (Hb p (trace s)).
  unfold new_Encoding_with, new_Encoding. run_monad.
  rewrite run_script_leaf by done. simpl.
  by destruct (re_Encoding_init R p (trace s)) as [[]| |].
Qed.

Lemma construct_plain n s :
  construct_with R nested n s = construct (plain R) n s.
Proof.
  unfold construct_with, construct, the_constructors. run_monad.
  destruct (ENCODING_CONSTRUCTORS s) as [d|]; [|done].
  destruct (dict_get n d) as [f|]; [|done].
  rewrite invoke_factory_plain.
  destruct (invoke_factory (plain R) n f s) as [s' [e|p]]; [done|].
  apply new_Encoding_plain.
Qed.

Lemma get_encoding_plain n s :
  get_encoding_with R nested n s = get_encoding (plain R) n s.
Proof.
  unfold get_encoding_with, get_encoding, get_encoding_locked, cached.
  run_monad. destruct (ENCODINGS s !! n) eqn:Hn; [done|]. run_monad.
  rewrite Hn. run_monad. rewrite ensure_constructors_plain.
  destruct (ensure_constructors (plain R) s) as [s1 [e|[]]]; [done|].
  by rewrite construct_plain.
Qed.

Lemma list_encoding_names_plain s :
  list_encoding_names_with R nested s = list_encoding_names (plain R) s.
Proof.
  unfold list_encoding_names_with, list_encoding_names. run_monad.
  by rewrite ensure_constructors_plain.
Qed.

Lemma perform_plain c s :
  perform_with R nested c s = perform (plain R) c s.
Proof.
  destruct c as [n|]; unfold perform_with, perform; run_monad.
  - by rewrite get_encoding_plain.
  - by rewrite list_encoding_names_plain.
Qed.

Lemma step_thread_plain tid m :
  step_thread_with R nested tid m = step_thread (plain R) tid m.
Proof.
  unfold step_thread_with, step_thread.
  destruct (threads m !! tid) as [[n p]|]; [|done]. simpl.
  destruct p; try done.
  - by rewrite ensure_constructors_plain.
  - by rewrite construct_plain.
Qed.

End Plain.

Section Callbacks.

Variable R : Reentrant.

Lemma get_encoding_at_plain depth n s :
  no_callbacks R → get_encoding_at R depth n s = get_encoding (plain R) n s.
Proof. intros H. by apply get_encoding_plain. Qed.

Lemma perform_at_plain depth c s :
  no_callbacks R → perform_at R depth c s = perform (plain R) c s.
Proof. intros H. by apply perform_plain. Qed.

Lemma run_at_plain depth calls : ∀ s,
  no_callbacks R → run_at R depth calls s = run (plain R) calls s.
Proof.
  induction calls as [|c calls IH]; intros s H; [done|]. simpl.
  unfold after_at, after. rewrite perform_at_plain by done. by apply IH.
Qed.

Lemma step_thread_at_plain depth tid m :
  no_callbacks R → step_thread_at R depth tid m = step_thread (plain R) tid m.
Proof. intros H. by apply step_thread_plain. Qed.

Lemma rtc_step_at_plain depth m m' :
  no_callbacks R → rtc (step_at R depth) m m' → rtc (step (plain R)) m m'.
Proof.
  intros H. apply rtc_subrel. intros m1 m2 [tid Hs]. exists tid.
  by rewrite <- (step_thread_at_plain depth).
Qed.

Lemma nsteps_step_at_plain depth k m m' :
  no_callbacks R → nsteps (step_at R depth) k m m' → nsteps (step (plain R)) k m m'.
Proof.
  intros H. induction 1 as [|k m1 m2 m3 [tid Hs] _ IH]; [constructor|].
  econstructor; [|exact IH]. exists tid. by rewrite <- (step_thread_at_plain depth).
Qed.

Lemma exec_at_plain depth schedule : ∀ m,
  no_callbacks R → exec_at R depth schedule m = exec (plain R) schedule m.
Proof.
  induction schedule as [|tid schedule IH]; intros m H; [done|]. simpl.
  rewrite step_thread_at_plain by done.
  destruct (step_thread (plain R) tid m); simpl; [by apply IH|done].
Qed.

Lemma exec_at_reachable depth schedule : ∀ m m',
  exec_at R depth schedule m = Some m' → rtc (step_at R depth) m m'.
Proof.
  induction schedule as [|tid schedule IH]; intros m m'; simpl.
  - intros [= ->]. apply rtc_refl.
  - destruct (step_thread_at R depth tid m) as [m1|] eqn:Hs; [|done]. simpl.
    intros He. eapply rtc_l; [by exists tid|by apply IH].
Qed.

Lemma no_callbacks_without (w : World) : no_callbacks (without_callbacks w).
Proof.
  split_and!; simpl.
  - intros m. by destruct (import_module w m).
  - intros f tr. by destruct (call_constructor w f tr).
  - intros p tr. by destruct (Encoding_init w p tr).
Qed.

(** With or without callbacks, no operation takes an entry out of the
    cache or puts another object in its place. *)

Lemma keeps_entries_ret {A} (a : A) : keeps_entries (ret a).
Proof. by intros s. Qed.

Lemma keeps_entries_raise {A} e : keeps_entries (raise (A := A) e).
Proof. by intros s. Qed.

Lemma keeps_entries_read {A} (f : State → A) : keeps_entries (read f).
Proof. by intros s. Qed.

Lemma keeps_entries_update f :
  (∀ s, ENCODINGS (f s) = ENCODINGS s) → keeps_entries (update f).
Proof. intros H s. simpl. by rewrite H. Qed.

Lemma keeps_entries_bind {A B} (m : M A) (k : A → M B) :
  keeps_entries m → (∀ a, keeps_entries (k a)) → keeps_entries (x ← m; k x).
Proof.
  intros Hm Hk s. run_monad. specialize (Hm s).
  destruct (m s) as [s' [e|a]]; simpl in *; [done|].
  etrans; [exact Hm|apply Hk].
Qed.

Lemma keeps_entries_try_except {A} (m : M A) (h : exn → M A) :
  keeps_entries m → (∀ e, keeps_entries (h e)) → keeps_entries (try_except m h).
Proof.
  intros Hm Hh s. unfold try_except. specialize (Hm s).
  destruct (m s) as [s' [e|a]]; simpl in *; [|done].
  etrans; [exact Hm|apply Hh].
Qed.

Lemma keeps_entries_for_each {A} (body : A → M unit) xs :
  (∀ x, keeps_entries (body x)) → keeps_entries (for_each xs body).
Proof.
  intros H. induction xs as [|x xs IH]; simpl; [apply keeps_entries_ret|].
  apply keeps_entries_bind; [apply H|by intros _].
Qed.

Lemma keeps_entries_run_script {A} nested (sc : script A) :
  (∀ c, keeps_entries (nested c)) → keeps_entries (run_script nested sc).
Proof.
  intros Hn. induction sc as [a|e|c k IH]; intros s; simpl; [done|done|].
  specialize (Hn c s). destruct (nested c s) as [s' r]. simpl in Hn.
  etrans; [exact Hn|apply IH].
Qed.

Lemma keeps_entries_available_plugin_modules (w : World) :
  keeps_entries (_available_plugin_modules w).
Proof. intros s. by rewrite available_plugin_modules_eq. Qed.

Lemma keeps_entries_the_constructors : keeps_entries the_constructors.
Proof.
  unfold the_constructors. apply keeps_entries_bind; [apply keeps_entries_read|].
  intros [d|]; [apply keeps_entries_ret|apply keeps_entries_raise].
Qed.

Lemma keeps_entries_register mod_name item : keeps_entries (register mod_name item).
Proof.
  destruct item as [enc_name constructor]. unfold register.
  apply keeps_entries_bind; [apply keeps_entries_the_constructors|].
  intros d. destruct (dict_contains enc_name d);
    [apply keeps_entries_raise|by apply keeps_entries_update].
Qed.

Section Nested.

Variable nested : call → M value.
Hypothesis Hnested : ∀ c, keeps_entries (nested c).

Lemma keeps_entries_load_plugin mod_name :
  keeps_entries (load_plugin_with R nested mod_name).
Proof.
  unfold load_plugin_with, importlib_import_module_with, get_constructors.
  apply keeps_entries_try_except.
  - apply keeps_entries_bind.
    + apply keeps_entries_bind; [by apply keeps_entries_update|].
      intros _. by apply keeps_entries_run_script.
    + intros m. apply keeps_entries_bind.
      * destruct (mod_ENCODING_CONSTRUCTORS m);
          [apply keeps_entries_ret|apply keeps_entries_raise].
      * intros items. apply keeps_entries_for_each.
        intros item. apply keeps_entries_register.
  - intros e. destruct e; apply keeps_entries_raise.
Qed.

Lemma keeps_entries_find_constructors :
  keeps_entries (_find_constructors_with R nested).
Proof.
  unfold _find_constructors_with.
  apply keeps_entries_bind; [apply keeps_entries_read|].
  intros [d|]; [apply keeps_entries_ret|].
  apply keeps_entries_bind; [by apply keeps_entries_update|]. intros _.
  apply keeps_entries_bind; [apply keeps_entries_available_plugin_modules|].
  intros mods. apply keeps_entries_for_each. apply keeps_entries_load_plugin.
Qed.

Lemma keeps_entries_ensure_constructors :
  keeps_entries (ensure_constructors_with R nested).
Proof.
  unfold ensure_constructors_with.
  apply keeps_entries_bind; [apply keeps_entries_read|].
  intros [d|]; [apply keeps_entries_ret|].
  apply keeps_entries_bind; [apply keeps_entries_find_constructors|]. intros _.
  apply keeps_entries_bind; [apply keeps_entries_read|].
  intros [d|]; [apply keeps_entries_ret|apply keeps_entries_raise].
Qed.

Lemma keeps_entries_invoke_factory n f :
  keeps_entries (invoke_factory_with R nested n f).
Proof.
  intros s. unfold invoke_factory_with.
  pose proof (keeps_entries_run_script nested (re_factory R f (trace s))
                Hnested s) as Hs.
  by destruct (run_script nested (re_factory R f (trace s)) s) as [s' [e|p]].
Qed.

Lemma keeps_entries_new_Encoding n p :
  keeps_entries (new_Encoding_with R nested n p).
Proof.
  intros s. unfold new_Encoding_with.
  pose proof (keeps_entries_run_script nested (re_Encoding_init R p (trace s))
                Hnested s) as Hs.
  by destruct (run_script nested (re_Encoding_init R p (trace s)) s)
    as [s' [e|[]]].
Qed.

Lemma keeps_entries_construct n : keeps_entries (construct_with R nested n).
Proof.
  unfold construct_with.
  apply keeps_entries_bind; [apply keeps_entries_the_constructors|].
  intros d. destruct (dict_get n d) as [f|].
  - apply keeps_entries_bind; [apply keeps_entries_invoke_factory|].
    intros p. apply keeps_entries_new_Encoding.
  - apply keeps_entries_bind; [apply keeps_entries_available_plugin_modules|].
    intros mods. apply keeps_entries_raise.
Qed.

Lemma get_encoding_with_hit n s enc :
  ENCODINGS s !! n = Some enc → get_encoding_with R nested n s = (s, inr enc).
Proof. intros H. unfold get_encoding_with, cached. run_monad. by rewrite H. Qed.

Lemma get_encoding_with_miss n s :
  ENCODINGS s !! n = None →
  get_encoding_with R nested n s =
    match ensure_constructors_with R nested s with
    | (s1, inl e) => (s1, inl e)
    | (s1, inr _) =>
        match construct_with R nested n s1 with
        | (s2, inl e) => (s2, inl e)
        | (s2, inr enc) =>
            (set_ENCODINGS (<[n := enc]> (ENCODINGS s2)) s2, inr enc)
        end
    end.
Proof.
  intros H. unfold get_encoding_with, cached, publish.
  run_monad. rewrite H. run_monad. rewrite H. run_monad.
  destruct (ensure_constructors_with R nested s) as [s1 [e|[]]]; [done|].
  destruct (construct_with R nested n s1) as [s2 [e|enc]]; done.
Qed.

Lemma keeps_entries_get_encoding n : keeps_entries (get_encoding_with R nested n).
Proof.
  intros s. destruct (ENCODINGS s !! n) as [enc|] eqn:Hl.
  - by rewrite (get_encoding_with_hit _ _ enc).
  - rewrite get_encoding_with_miss by done.
    pose proof (keeps_entries_ensure_constructors s) as H1.
    destruct (ensure_constructors_with R nested s) as [s1 [e|[]]];
      simpl in *; [done|].
    pose proof (keeps_entries_construct n s1) as H2.
    destruct (construct_with R nested n s1) as [s2 [e|enc]]; simpl in *;
      [by etrans|].
    apply insert_subseteq_r; [done|by etrans].
Qed.

Lemma keeps_entries_list_encoding_names :
  keeps_entries (list_encoding_names_with R nested).
Proof.
  unfold list_encoding_names_with.
  apply keeps_entries_bind; [apply keeps_entries_ensure_constructors|]. intros _.
  apply keeps_entries_bind; [apply keeps_entries_the_constructors|].
  intros d. apply keeps_entries_ret.
Qed.

Lemma keeps_entries_perform c : keeps_entries (perform_with R nested c).
Proof.
  destruct c as [n|]; unfold perform_with.
  - apply keeps_entries_bind; [apply keeps_entries_get_encoding|].
    intros enc. apply keeps_entries_ret.
  - apply keeps_entries_bind; [apply keeps_entries_list_encoding_names|].
    intros names. apply keeps_entries_ret.
Qed.

(** Once the table is set no module is imported. *)
Lemma ensure_constructors_with_built s d :
  ENCODING_CONSTRUCTORS s = Some d →
  ensure_constructors_with R nested s = (s, inr tt).
Proof. intros Hd. unfold ensure_constructors_with. run_monad. by rewrite Hd. Qed.

Lemma list_encoding_names_with_built s d :
  ENCODING_CONSTRUCTORS s = Some d →
  list_encoding_names_with R nested s = (s, inr (dict_keys d)).
Proof.
  intros Hd. unfold list_encoding_names_with, the_constructors. run_monad.
  rewrite (ensure_constructors_with_built s d Hd). run_monad. by rewrite Hd.
Qed.

(** A miss on a name the table, already set, does not have calls no
    collaborator. *)
Lemma get_encoding_with_unknown n s d :
  ENCODINGS s !! n = None →
  ENCODING_CONSTRUCTORS s = Some d →
  dict_get n d = None →
  get_encoding_with R nested n s =
    (set_plugin_modules_cache (Some (scanned (plain R) s))
       (add_events (scan_events s) s),
     inl (ValueError (unknown_msg n (scanned (plain R) s)))).
Proof.
  intros Hn Hd Hf. rewrite get_encoding_with_miss by done.
  rewrite (ensure_constructors_with_built s d Hd).
  unfold construct_with, the_constructors. run_monad. rewrite Hd. run_monad.
  rewrite Hf. run_monad. by rewrite available_plugin_modules_eq.
Qed.

(** The object [get_encoding] returns is the one the cache holds. *)
Lemma get_encoding_with_returns n s s1 enc :
  get_encoding_with R nested n s = (s1, inr enc) → ENCODINGS s1 !! n = Some enc.
Proof.
  destruct (ENCODINGS s !! n) as [enc'|] eqn:Hn.
  - rewrite (get_encoding_with_hit _ _ enc') by done. by intros [= <- <-].
  - rewrite get_encoding_with_miss by done.
    destruct (ensure_constructors_with R nested s) as [s2 [e|[]]]; [done|].
    destruct (construct_with R nested n s2) as [s3 [e|enc']]; [done|].
    intros [= <- <-]. simpl. apply lookup_insert_eq.
Qed.

End Nested.

Lemma keeps_entries_nested_at depth : ∀ c, keeps_entries (nested_at R depth c).
Proof.
  induction depth as [|depth IH]; intros c; simpl; [apply keeps_entries_raise|].
  by apply keeps_entries_perform.
Qed.

Lemma after_at_subseteq depth c s :
  ENCODINGS s ⊆ ENCODINGS (after_at R depth c s).
Proof.
  apply (keeps_entries_perform (nested_at R depth) (keeps_entries_nested_at depth)).
Qed.

Lemma run_at_subseteq depth calls : ∀ s,
  ENCODINGS s ⊆ ENCODINGS (run_at R depth calls s).
Proof.
  induction calls as [|c calls IH]; intros s; [done|]. simpl.
  etrans; [apply (after_at_subseteq depth c)|apply IH].
Qed.

Lemma get_encoding_at_returns depth n s s1 enc :
  get_encoding_at R depth n s = (s1, inr enc) → ENCODINGS s1 !! n = Some enc.
Proof. apply get_encoding_with_returns. Qed.

Lemma get_encoding_at_hit depth n s enc :
  ENCODINGS s !! n = Some enc → get_encoding_at R depth n s = (s, inr enc).
Proof. apply get_encoding_with_hit. Qed.

End Callbacks.

(** ** What the loops leave: facts about the closed form *)

Section Merge.

Variable w : World.

Lemma dict_keys_app {V} (d d' : dict V) :
  dict_keys (d ++ d') = dict_keys d ++ dict_keys d'.
Proof. unfold dict_keys. apply fmap_app. Qed.

Lemma contributed_cons mod_name mods :
  contributed w (mod_name :: mods) = items_of w mod_name ++ contributed w mods.
Proof. done. Qed.

Lemma items_of_well_formed mod_name items :
  import_module w mod_name = inr (mkModule (Some items)) →
  items_of w mod_name = items.
Proof. intros H. unfold items_of. by rewrite H. Qed.

Lemma merge_items_app mod_name a b : ∀ d,
  merge_items mod_name (a ++ b) d =
    match merge_items mod_name a d with
    | (d', None) => merge_items mod_name b d'
    | r => r
    end.
Proof.
  induction a as [|[k f] a IH]; intros d; simpl; [done|].
  destruct (dict_contains k d); [done|]. apply IH.
Qed.

Lemma merge_items_ok mod_name items : ∀ d,
  NoDup (dict_keys (d ++ items)) →
  merge_items mod_name items d = (d ++ items, None).
Proof.
  induction items as [|[k f] items IH]; intros d Hnd; simpl.
  - by rewrite app_nil_r.
  - assert (k ∉ dict_keys d) as Hk.
    { rewrite dict_keys_app in Hnd. apply NoDup_app in Hnd as (_ & Hd & _).
      intros Hin. apply (Hd k Hin). simpl. left. }
    rewrite (proj2 (dict_contains_false k d) Hk).
    rewrite dict_set_fresh by done.
    rewrite IH; rewrite <- app_assoc; done.
Qed.

Lemma merge_items_dup mod_name its1 x f its2 d :
  NoDup (dict_keys (d ++ its1)) →
  x ∈ dict_keys (d ++ its1) →
  merge_items mod_name (its1 ++ (x, f) :: its2) d =
    (d ++ its1, Some (ValueError (duplicate_msg x mod_name))).
Proof.
  intros Hnd Hx. rewrite merge_items_app, merge_items_ok by done. simpl.
  by rewrite (proj2 (dict_contains_true x (d ++ its1)) Hx).
Qed.

Lemma merge_items_prefix mod_name items : ∀ d,
  ∃ done_, (merge_items mod_name items d).1 = d ++ done_ ∧
           done_ `prefix_of` items ∧
           ((merge_items mod_name items d).2 = None → done_ = items).
Proof.
  induction items as [|[k f] items IH]; intros d; simpl.
  - exists []. by rewrite app_nil_r.
  - destruct (dict_contains k d) eqn:Hk; simpl.
    + exists []. rewrite app_nil_r. split_and!; [done|apply prefix_nil|done].
    + apply dict_contains_false in Hk. rewrite dict_set_fresh by done.
      destruct (IH (d ++ [(k, f)])) as (done_ & H1 & H2 & H3).
      exists ((k, f) :: done_). rewrite H1, <- app_assoc. simpl.
      split_and!; [done|by apply prefix_cons|]. intros H. by rewrite H3.
Qed.

Lemma merge_module_prefix mod_name d :
  ∃ done_, (merge_module w mod_name d).1 = d ++ done_ ∧
           done_ `prefix_of` items_of w mod_name ∧
           ((merge_module w mod_name d).2 = None → done_ = items_of w mod_name).
Proof.
  unfold merge_module, items_of.
  destruct (import_module w mod_name) as [e|[[items|]]]; simpl.
  - exists []. rewrite app_nil_r. by destruct e.
  - apply merge_items_prefix.
  - exists []. by rewrite app_nil_r.
Qed.

Lemma merge_modules_prefix mods : ∀ d,
  ∃ done_, (merge_modules w mods d).1.1 = d ++ done_ ∧
           done_ `prefix_of` contributed w mods ∧
           ((merge_modules w mods d).2 = None → done_ = contributed w mods).
Proof.
  induction mods as [|m mods IH]; intros d.
  - exists []. simpl. by rewrite app_nil_r.
  - rewrite contributed_cons. cbn [merge_modules].
    destruct (merge_module_prefix m d) as (done1 & H1 & H2 & H3).
    destruct (merge_module w m d) as [d' [e|]]; simpl in *.
    + exists done1. split_and!; [done|by apply prefix_app_r|done].
    + rewrite H3 in * by done. subst d'.
      destruct (IH (d ++ items_of w m)) as (done2 & H4 & H5 & H6).
      destruct (merge_modules w mods (d ++ items_of w m)) as [[d'' k] r];
        simpl in *.
      exists (items_of w m ++ done2). rewrite H4, <- app_assoc.
      split_and!; [done|by apply prefix_app|]. intros H. by rewrite H6.
Qed.

Lemma merge_module_ok mod_name items d :
  import_module w mod_name = inr (mkModule (Some items)) →
  NoDup (dict_keys (d ++ items)) →
  merge_module w mod_name d = (d ++ items, None).
Proof.
  intros Hm Hnd. unfold merge_module. rewrite Hm. simpl.
  by apply merge_items_ok.
Qed.

Lemma merge_modules_ok mods : ∀ d,
  (∀ m, m ∈ mods → well_formed w m) →
  NoDup (dict_keys (d ++ contributed w mods)) →
  merge_modules w mods d = (d ++ contributed w mods, length mods, None).
Proof.
  induction mods as [|m mods IH]; intros d Hwf Hnd.
  - simpl. by rewrite app_nil_r.
  - rewrite contributed_cons in *. cbn [merge_modules].
    destruct (Hwf m) as [items Hm]; [left|].
    rewrite (items_of_well_formed _ _ Hm) in *.
    rewrite (merge_module_ok _ items) by
      (try done; rewrite app_assoc, dict_keys_app in Hnd;
       by apply NoDup_app in Hnd as (? & _ & _)).
    rewrite IH.
    + by rewrite <- app_assoc.
    + intros m' Hm'. apply Hwf. by right.
    + by rewrite <- app_assoc.
Qed.

Lemma merge_modules_app a b : ∀ d,
  merge_modules w (a ++ b) d =
    match merge_modules w a d with
    | (d', k, None) =>
        let '(d'', k', r) := merge_modules w b d' in (d'', k + k', r)
    | r => r
    end.
Proof.
  induction a as [|m a IH]; intros d; simpl.
  - by destruct (merge_modules w b d) as [[??]?].
  - destruct (merge_module w m d) as [d' [e|]]; [done|].
    rewrite IH. destruct (merge_modules w a d') as [[d'' k] [e|]]; [done|].
    by destruct (merge_modules w b d'') as [[??]?].
Qed.

(** Every exception a build raises is a [ValueError] of the registry or
    the exception, not an [AttributeError], that importing one of the
    modules raised. *)
Lemma merge_modules_error mods : ∀ d e,
  (merge_modules w mods d).2 = Some e →
  (∃ msg, e = ValueError msg) ∨
  (∃ m, m ∈ mods ∧ import_module w m = inl e ∧ ∀ msg, e ≠ AttributeError msg).
Proof.
  induction mods as [|m mods IH]; intros d e; simpl; [done|].
  destruct (merge_module w m d) as [d' [e'|]] eqn:Hm; simpl.
  - intros [= ->]. unfold merge_module in Hm.
    destruct (import_module w m) as [e0|[[items|]]] eqn:Hi; simpl in Hm.
    + destruct e0; simplify_eq; eauto; right; exists m;
        (split_and!; [left|done|done]).
    + destruct (merge_items_error m items d e) as [k ->]; [by rewrite Hm|].
      eauto.
    + simplify_eq. eauto.
  - destruct (merge_modules w mods d') as [[d'' k] r] eqn:Hr. simpl.
    intros ->. destruct (IH d' e) as [?|(m' & ? & ? & ?)]; [by rewrite Hr|by left|].
    right. exists m'. split_and!; [by right|done|done].
Qed.

End Merge.

(** ** Invariants of sequential runs *)

Lemma count_app p tr tr' : count p (tr ++ tr') = count p tr + count p tr'.
Proof. unfold count. by rewrite filter_app, length_app. Qed.

Lemma count_none p evs : Forall (λ e, p e = false) evs → count p evs = 0.
Proof.
  unfold count. induction 1 as [|e evs He _ IH]; [done|].
  rewrite filter_cons_False by congruence. done.
Qed.

Lemma count_cons p e tr :
  count p (e :: tr) = (if p e then 1 else 0) + count p tr.
Proof.
  unfold count. destruct (p e) eqn:He.
  - by rewrite filter_cons_True.
  - rewrite filter_cons_False by congruence. done.
Qed.

Lemma count_nil p : count p [] = 0.
Proof. done. Qed.

Lemma ignores_loading_factory_call n : ignores_loading (is_factory_call n).
Proof. done. Qed.
Lemma ignores_loading_failed_attempt n : ignores_loading (is_failed_attempt n).
Proof. done. Qed.
Lemma ignores_loading_built n : ignores_loading (is_built n).
Proof. done. Qed.
Lemma ignores_loading_builder_call n : ignores_loading (is_builder_call n).
Proof. done. Qed.
Lemma ignores_loading_construction : ignores_loading is_construction.
Proof. done. Qed.

Create HintDb registry.

#[global] Hint Resolve ignores_loading_factory_call ignores_loading_failed_attempt
  ignores_loading_built ignores_loading_builder_call
  ignores_loading_construction : registry.

Section Invariants.

Variable w : World.

Lemma count_scan_events p s : ignores_loading p → count p (scan_events s) = 0.
Proof.
  intros [Hs _]. unfold scan_events.
  destruct (plugin_modules_cache s); [done|].
  apply count_none. by repeat constructor.
Qed.

Lemma count_imports p (l : list string) :
  ignores_loading p → count p (Import <$> l) = 0.
Proof.
  intros [_ Hi]. apply count_none. apply Forall_fmap, Forall_forall.
  intros m _. apply Hi.
Qed.

Lemma count_ensured p s :
  ignores_loading p → count p (trace (ensured w s)) = count p (trace s).
Proof.
  intros Hp. unfold ensured. destruct (ENCODING_CONSTRUCTORS s); [done|].
  simpl. rewrite !count_app, count_scan_events, count_imports by done. lia.
Qed.

Lemma Inv_initial : Inv w initial.
Proof. split; try done. Qed.

Lemma Inv_ensured s : Inv w s → Inv w (ensured w s).
Proof.
  intros [H1 H2 H3 H4 H5].
  split.
  - unfold ensured. destruct (ENCODING_CONSTRUCTORS s); [done|].
    unfold scanned in *. simpl. done.
  - unfold ensured. destruct (ENCODING_CONSTRUCTORS s) eqn:Hd;
      [intros d0 Hd0; apply H2; congruence|].
    simpl. intros d [= <-]. unfold built, the_table. by rewrite H1.
  - intros n enc. rewrite ensured_ENCODINGS. intros Hn.
    destruct (H3 n enc Hn) as (d & Hd & Hk). unfold ensured. rewrite Hd. eauto.
  - intros n. rewrite !count_ensured by auto with registry.
    unfold cached_count. rewrite ensured_ENCODINGS. apply H4.
  - intros n. rewrite !count_ensured by auto with registry.
    unfold cached_count. rewrite ensured_ENCODINGS. apply H5.
Qed.

Lemma Inv_construct_raises n s s2 e :
  Inv w s → construct_spec w n s s2 (inl e) → Inv w s2.
Proof.
  intros [H1 H2 H3 H4 H5] Hc. inversion Hc; subst; clear Hc.
  - split; try done.
    + intros n'. simpl. rewrite !count_app, !count_scan_events
        by auto with registry. rewrite !Nat.add_0_r. apply H4.
    + intros n'. simpl. rewrite !count_app, !count_scan_events
        by auto with registry. rewrite !Nat.add_0_r. apply H5.
  - split; try done.
    + intros n'. simpl. rewrite !count_app, !count_cons, !count_nil.
      specialize (H4 n'). unfold cached_count in *. simpl in *.
      case_bool_decide; lia.
    + intros n'. simpl. rewrite !count_app, !count_cons, !count_nil.
      specialize (H5 n'). unfold cached_count in *. simpl in *. lia.
  - split; try done.
    + intros n'. simpl. rewrite !count_app, !count_cons, !count_nil.
      specialize (H4 n'). unfold cached_count in *. simpl in *.
      case_bool_decide; lia.
    + intros n'. simpl. rewrite !count_app, !count_cons, !count_nil.
      specialize (H5 n'). unfold cached_count in *. simpl in *. lia.
Qed.

Lemma Inv_constructed n s s2 enc :
  Inv w s → ENCODINGS s !! n = None →
  construct_spec w n s s2 (inr enc) →
  Inv w (set_ENCODINGS (<[n := enc]> (ENCODINGS s2)) s2).
Proof.
  intros [H1 H2 H3 H4 H5] Hn Hc. inversion Hc; subst; clear Hc.
  split; try done.
  - simpl. intros n' enc'. destruct (decide (n = n')) as [<-|Hne].
    + intros _. exists d. split; [done|]. by eapply dict_get_Some_key.
    + rewrite lookup_insert_ne by done. apply H3.
  - intros n'. simpl. rewrite !count_app, !count_cons, !count_nil.
    specialize (H4 n'). unfold cached_count in *. simpl in *.
    destruct (decide (n = n')) as [<-|Hne].
    + rewrite lookup_insert_eq. rewrite Hn in H4.
      rewrite !bool_decide_eq_true_2 by done. lia.
    + rewrite lookup_insert_ne by done.
      rewrite !bool_decide_eq_false_2 by done. lia.
  - intros n'. simpl. rewrite !count_app, !count_cons, !count_nil.
    specialize (H5 n'). unfold cached_count in *. simpl in *.
    destruct (decide (n = n')) as [<-|Hne].
    + rewrite lookup_insert_eq. rewrite Hn in H5.
      rewrite !bool_decide_eq_true_2 by done. lia.
    + rewrite lookup_insert_ne by done.
      rewrite !bool_decide_eq_false_2 by done. lia.
Qed.

Lemma Inv_get_encoding n s : Inv w s → Inv w (get_encoding w n s).1.
Proof.
  intros HI. destruct (ENCODINGS s !! n) as [enc|] eqn:Hn.
  - by rewrite (get_encoding_hit _ _ _ enc).
  - destruct (get_encoding_miss_cases w n s Hn).
    + by apply Inv_ensured.
    + eapply Inv_construct_raises; [|done]. by apply Inv_ensured.
    + eapply Inv_constructed; [by apply Inv_ensured| |done].
      by rewrite ensured_ENCODINGS.
Qed.

Lemma Inv_list_encoding_names s : Inv w s → Inv w (list_encoding_names w s).1.
Proof.
  intros HI. rewrite list_encoding_names_eq.
  destruct (ensured_verdict w s); by apply Inv_ensured.
Qed.

Lemma perform_fst c s :
  after w c s =
    match c with
    | Get_encoding n => (get_encoding w n s).1
    | List_encoding_names => (list_encoding_names w s).1
    end.
Proof.
  unfold after, perform. destruct c; run_monad.
  - by destruct (get_encoding w encoding_name s) as [s' [e|enc]].
  - by destruct (list_encoding_names w s) as [s' [e|l]].
Qed.

Lemma Inv_after c s : Inv w s → Inv w (after w c s).
Proof.
  intros HI. rewrite perform_fst. destruct c.
  - by apply Inv_get_encoding.
  - by apply Inv_list_encoding_names.
Qed.

Lemma Inv_run calls : ∀ s, Inv w s → Inv w (run w calls s).
Proof.
  induction calls as [|c calls IH]; intros s HI; [done|].
  simpl. apply IH. by apply Inv_after.
Qed.

End Invariants.

(** ** Frame properties of a call *)

Section Frames.

Variable w : World.

(** What a call does to the cache: nothing, or one new entry under the
    requested name, which was free. *)
Lemma after_ENCODINGS c s :
  ENCODINGS (after w c s) = ENCODINGS s ∨
  ∃ n enc, c = Get_encoding n ∧ ENCODINGS s !! n = None ∧
           ENCODINGS (after w c s) !! n = Some enc ∧
           ENCODINGS (after w c s) = <[n := enc]> (ENCODINGS s).
Proof.
  rewrite perform_fst. destruct c as [n|].
  - destruct (ENCODINGS s !! n) as [enc|] eqn:Hn.
    + left. by rewrite (get_encoding_hit _ _ _ enc).
    + destruct (get_encoding_miss_cases w n s Hn) as [e He|s2 e He Hc|s2 enc He Hc].
      * left. apply ensured_ENCODINGS.
      * left. apply construct_spec_frame in Hc as [-> _]. apply ensured_ENCODINGS.
      * right. exists n, enc. apply construct_spec_frame in Hc as [Hc _].
        simpl. rewrite Hc, ensured_ENCODINGS, lookup_insert_eq. done.
  - left. rewrite list_encoding_names_eq.
    destruct (ensured_verdict w s); apply ensured_ENCODINGS.
Qed.

Lemma after_subseteq c s : ENCODINGS s ⊆ ENCODINGS (after w c s).
Proof.
  destruct (after_ENCODINGS c s) as [->|(n & enc & _ & Hn & _ & ->)]; [done|].
  by apply insert_subseteq.
Qed.

Lemma run_subseteq calls : ∀ s, ENCODINGS s ⊆ ENCODINGS (run w calls s).
Proof.
  induction calls as [|c calls IH]; intros s; [done|].
  simpl. etrans; [apply after_subseteq|apply IH].
Qed.

(** Once the table is set, a call leaves it alone and imports nothing. *)
Lemma after_built c s d :
  ENCODING_CONSTRUCTORS s = Some d →
  ENCODING_CONSTRUCTORS (after w c s) = Some d ∧
  imports (trace (after w c s)) = imports (trace s).
Proof.
  intros Hd. rewrite perform_fst.
  assert (ensured w s = s) as He by (unfold ensured; by rewrite Hd).
  destruct c as [n|].
  - destruct (ENCODINGS s !! n) as [enc|] eqn:Hn.
    + by rewrite (get_encoding_hit _ _ _ enc).
    + destruct (get_encoding_miss_cases w n s Hn) as [e Hv|s2 e Hv Hc|s2 enc Hv Hc];
        rewrite ?He in *; [done|..];
        inversion Hc; subst; simpl; (split; [done|]);
        unfold imports, scan_events; rewrite filter_app; simpl;
        try destruct (plugin_modules_cache s); simpl; by rewrite app_nil_r.
  - rewrite list_encoding_names_eq, He. by destruct (ensured_verdict w s).
Qed.

Lemma run_built calls : ∀ s d,
  ENCODING_CONSTRUCTORS s = Some d →
  ENCODING_CONSTRUCTORS (run w calls s) = Some d ∧
  imports (trace (run w calls s)) = imports (trace s).
Proof.
  induction calls as [|c calls IH]; intros s d Hd; [done|].
  simpl. destruct (after_built c s d Hd) as [Hd' Hi].
  destruct (IH _ _ Hd') as [? ?]. split; [done|congruence].
Qed.

End Frames.

(** ** The cache and the table under sequences of calls *)

(** C8.  Once the constructor table is set, building it is a no-op that
    returns at once, and no sequence of calls of the public operations
    changes the table or imports a plugin module. *)
Theorem built_table_is_reused (w : World) (s : State) (d : dict factory) :
  ENCODING_CONSTRUCTORS s = Some d →
  _find_constructors w s = (s, inr tt) ∧
  ∀ calls, ENCODING_CONSTRUCTORS (run w calls s) = Some d ∧
           imports (trace (run w calls s)) = imports (trace s).
Proof.
  intros Hd. split; [by eapply find_constructors_built|].
  intros calls. by apply run_built.
Qed.

Lemma built_table_is_reused_witness :
  let s := run two_plugins [List_encoding_names] initial in
  ENCODING_CONSTRUCTORS s = Some [("x", 1); ("y", 2); ("z", 3)] ∧
  (_find_constructors two_plugins s = (s, inr tt) ∧
   ∀ calls, ENCODING_CONSTRUCTORS (run two_plugins calls s) =
              Some [("x", 1); ("y", 2); ("z", 3)] ∧
            imports (trace (run two_plugins calls s)) = imports (trace s)).
Proof.
  split; [reflexivity|].
  apply (built_table_is_reused two_plugins
           (run two_plugins [List_encoding_names] initial)
           [("x", 1); ("y", 2); ("z", 3)]).
  reflexivity.
Defined.

Section Listing.

Variable w : World.

Lemma list_encoding_names_frame s :
  ENCODINGS (list_encoding_names w s).1 = ENCODINGS s ∧
  constructions (trace (list_encoding_names w s).1) = constructions (trace s).
Proof.
  rewrite list_encoding_names_eq.
  assert (constructions (trace (ensured w s)) = constructions (trace s)) as Ht.
  { unfold ensured. destruct (ENCODING_CONSTRUCTORS s); [done|].
    unfold constructions. simpl. unfold scan_events. rewrite !filter_app.
    assert (∀ l : list string,
              filter (λ e, is_construction e = true) (Import <$> l) = []) as ->.
    { induction l as [|m l IH]; [done|]. simpl.
      rewrite filter_cons_False by done. apply IH. }
    destruct (plugin_modules_cache s); simpl; by rewrite ?app_nil_r. }
  destruct (ensured_verdict w s); simpl; by rewrite ensured_ENCODINGS.
Qed.

(** When every plugin is well formed and no name is registered twice,
    the build succeeds and leaves all the contributed items. *)
Lemma build_ok :
  (∀ m, m ∈ iter_modules w → well_formed w m) →
  NoDup (dict_keys (contributed w (iter_modules w))) →
  merge_modules w (iter_modules w) [] =
    (contributed w (iter_modules w), length (iter_modules w), None).
Proof. intros Hwf Hnd. by rewrite merge_modules_ok. Qed.

(** The table of a build holds the first of the contributed items. *)
Lemma the_table_prefix : the_table w `prefix_of` contributed w (iter_modules w).
Proof.
  unfold the_table.
  destruct (merge_modules_prefix w (iter_modules w) []) as (done_ & -> & Hp & _).
  done.
Qed.

(** The names [list_encoding_names] returns, in a state a run leaves. *)
Lemma list_encoding_names_table s names :
  Inv w s →
  (list_encoding_names w s).2 = inr names →
  names = dict_keys (the_table w).
Proof.
  intros HI. rewrite list_encoding_names_eq.
  destruct (ensured_verdict w s); simpl; [done|]. intros [= <-].
  destruct (ensured_is_Some w s) as [d Hd]. rewrite Hd. simpl.
  by rewrite (inv_table _ _ (Inv_ensured w s HI) d Hd).
Qed.

Lemma list_encoding_names_built s d :
  ENCODING_CONSTRUCTORS s = Some d →
  list_encoding_names w s = (s, inr (dict_keys d)).
Proof.
  intros Hd. rewrite list_encoding_names_eq. unfold ensured_verdict, ensured.
  rewrite Hd. simpl. by rewrite Hd.
Qed.

End Listing.

(** The listing, in a world without callbacks. *)
Lemma listing_plain (w : World) :
  (∀ s, ENCODINGS (list_encoding_names w s).1 = ENCODINGS s ∧
        constructions (trace (list_encoding_names w s).1) =
          constructions (trace s)) ∧
  (∀ calls names,
     (list_encoding_names w (run w calls initial)).2 = inr names →
     names `prefix_of` dict_keys (contributed w (iter_modules w))) ∧
  ((∀ m, m ∈ iter_modules w → well_formed w m) →
   NoDup (dict_keys (contributed w (iter_modules w))) →
   ∀ calls, (list_encoding_names w (run w calls initial)).2 =
              inr (dict_keys (contributed w (iter_modules w)))).
Proof.
  split_and!; [apply list_encoding_names_frame| |].
  - intros calls names Hl.
    pose proof (Inv_run w calls initial (Inv_initial w)) as HI.
    rewrite (list_encoding_names_table w _ names HI Hl).
    destruct (the_table_prefix w) as [k ->]. exists (dict_keys k).
    unfold dict_keys. by rewrite fmap_app.
  - intros Hwf Hnd calls.
    pose proof (Inv_run w calls initial (Inv_initial w)) as [Hs Ht _ _ _].
    pose proof (build_ok w Hwf Hnd) as Hb.
    rewrite list_encoding_names_eq. unfold ensured_verdict, ensured.
    destruct (ENCODING_CONSTRUCTORS (run w calls initial)) as [d|] eqn:Hd.
    + simpl. rewrite Hd. simpl. rewrite (Ht d eq_refl). unfold the_table.
      by rewrite Hb.
    + unfold built. rewrite Hs, Hb. simpl. unfold built. by rewrite Hs, Hb.
Qed.



(** C6 as the specification words it fails: after a build that stopped at
    a malformed plugin, [list_encoding_names] returns without the name
    of a well-formed plugin enumerated later; after one that stopped at
    a duplicate, without a name the clashing plugin, well formed as it
    is, registers after the duplicate; and when a plugin module, while
    it is imported, asks the registry for an encoding, the listing that
    started the build has the factory and the builder called. *)
Lemma list_misses_names_counterexample :
  (list_encoding_names malformed_plugin
     (run malformed_plugin [List_encoding_names] initial)).2 = inr ["x"] ∧
  well_formed malformed_plugin "tiktoken_ext.c" ∧
  items_of malformed_plugin "tiktoken_ext.c" = [("z", 3)] ∧
  (list_encoding_names late_clash (run late_clash [List_encoding_names] initial)).2 =
    inr ["x"] ∧
  (∀ m, m ∈ iter_modules late_clash → well_formed late_clash m) ∧
  items_of late_clash "tiktoken_ext.b" = [("x", 4); ("z", 3)] ∧
  (let r := list_encoding_names_at import_calls_back recursion_limit initial in
   r.2 = inr ["x"; "z"] ∧
   constructions (trace r.1) = [Factory "x" 1 true; Builder "x" true] ∧
   ENCODINGS r.1 !! "x" = Some (mkEncoding 4 [("name", "enc")])).
Proof.
  split_and!; try reflexivity.
  - eexists; reflexivity.
  - intros m Hm. simpl in Hm. apply elem_of_cons in Hm as [->|Hm];
      [eexists; reflexivity|].
    apply elem_of_cons in Hm as [->|Hm]; [eexists; reflexivity|].
    by apply elem_of_nil in Hm.
  - by split_and!.
Qed.

(** ** Failures of [get_encoding] *)

Section Failures.

Variable w : World.

Lemma ensure_constructors_inv s s1 r :
  ensure_constructors w s = (s1, r) →
  s1 = ensured w s ∧ r = ensured_verdict w s.
Proof. rewrite ensure_constructors_eq. by intros [= <- <-]. Qed.

Lemma ensured_built s d :
  ENCODING_CONSTRUCTORS s = Some d → ensured w s = s ∧ ensured_verdict w s = inr tt.
Proof. intros Hd. unfold ensured, ensured_verdict. by rewrite Hd. Qed.

(** A miss on a registered name starts by calling the factory. *)
Lemma get_encoding_calls_factory n s d f :
  ENCODINGS s !! n = None →
  ENCODING_CONSTRUCTORS s = Some d →
  dict_get n d = Some f →
  ∃ ok rest, trace (get_encoding w n s).1 = trace s ++ Factory n f ok :: rest.
Proof.
  intros Hn Hd Hf. destruct (ensured_built s d Hd) as [He Hv].
  destruct (get_encoding_miss_cases w n s Hn) as [e Hv'|s2 e _ Hc|s2 enc _ Hc];
    [congruence|..]; rewrite He in Hc; inversion Hc; simplify_eq; simpl; eauto.
Qed.

(** What a failed construction leaves. *)
Lemma get_encoding_construct_raises n s s1 d f e :
  ENCODINGS s !! n = None →
  ensure_constructors w s = (s1, inr tt) →
  ENCODING_CONSTRUCTORS s1 = Some d →
  dict_get n d = Some f →
  (call_constructor w f (trace s1) = inl e ∨
   ∃ p, call_constructor w f (trace s1) = inr p ∧
        Encoding_init w p (trace s1 ++ [Factory n f true]) = Some e) →
  ∃ evs, get_encoding w n s = (add_events evs s1, inl e).
Proof.
  intros Hn He Hd Hf Hfail.
  apply ensure_constructors_inv in He as [-> Hv].
  pose proof (construct_cases w n _ d Hd) as Hc.
  rewrite get_encoding_miss, <- Hv by done.
  destruct (construct w n (ensured w s)) as [s2 r]. simpl in Hc.
  inversion Hc; simplify_eq; destruct Hfail as [?|(p' & ? & ?)];
    same_lhs; eauto.
Qed.

Lemma append_nil_r (s : string) : s +:+ "" = s.
Proof. induction s as [|a s IH]; [done|]. unfold String.app in *. simpl. by rewrite IH. Qed.

Lemma append_assoc (a b c : string) : (a +:+ b) +:+ c = a +:+ b +:+ c.
Proof.
  induction a as [|x a IH]; [done|]. unfold String.app in *. simpl. by rewrite IH.
Qed.

Lemma join_mentions sep (l : list string) m :
  m ∈ l → ∃ pre post, join sep l = pre +:+ m +:+ post.
Proof.
  induction l as [|x l IH]; intros Hm; [by apply elem_of_nil in Hm|].
  destruct l as [|y l].
  - apply list_elem_of_singleton in Hm as ->. exists "", "". simpl.
    by rewrite append_nil_r.
  - apply elem_of_cons in Hm as [->|Hm].
    + exists "", (sep +:+ join sep (y :: l)). done.
    + destruct (IH Hm) as (pre & post & Hj).
      exists (x +:+ sep +:+ pre), post.
      change (join sep (x :: y :: l)) with (x +:+ sep +:+ join sep (y :: l)).
      by rewrite Hj, !append_assoc.
Qed.

(** The message of [UnknownEncoding] shows every plugin module scanned. *)
Lemma unknown_msg_mentions n (mods : list string) m :
  m ∈ mods → ∃ pre post, unknown_msg n mods = pre +:+ repr_str m +:+ post.
Proof.
  intros Hm. unfold unknown_msg, repr_list.
  destruct (join_mentions ", " (repr_str <$> mods) (repr_str m)) as (pre & post & ->).
  { by apply list_elem_of_fmap_2. }
  exists ("Unknown encoding " +:+ n +:+ ". Plugins found: " +:+ "[" +:+ pre),
         (post +:+ "]").
  by rewrite !append_assoc.
Qed.

Lemma repr_char_plain c :
  plain_char c = true → repr_char single_quote c = String c "".
Proof.
  destruct c as [[] [] [] [] [] [] [] []]; intros H; vm_compute in H;
    try discriminate H; reflexivity.
Qed.

Lemma plain_name_quote s : plain_name s = true → contains single_quote s = false.
Proof.
  induction s as [|c s IH]; [done|]. simpl. intros [Hc Hs]%andb_prop.
  rewrite (IH Hs), orb_false_r. unfold plain_char in Hc.
  apply andb_prop in Hc as [[_ Hq]%andb_prop _].
  by apply negb_true_iff in Hq.
Qed.

Lemma escape_plain s : plain_name s = true → escape single_quote s = s.
Proof.
  induction s as [|c s IH]; [done|]. simpl. intros [Hc Hs]%andb_prop.
  by rewrite (repr_char_plain c Hc), (IH Hs).
Qed.

(** [repr] of a plain string is the string between single quotes. *)
Lemma repr_str_plain s :
  plain_name s = true → repr_str s = "'" +:+ s +:+ "'".
Proof.
  intros Hs. unfold repr_str, quote_of.
  rewrite (plain_name_quote s Hs). simpl. by rewrite (escape_plain s Hs).
Qed.

Lemma unknown_msg_shows n (mods : list string) m :
  m ∈ mods → plain_name m = true →
  ∃ pre post, unknown_msg n mods = pre +:+ "'" +:+ m +:+ "'" +:+ post.
Proof.
  intros Hm Hp. destruct (unknown_msg_mentions n mods m Hm) as (pre & post & ->).
  exists pre, post. by rewrite (repr_str_plain m Hp), !append_assoc.
Qed.

End Failures.



(** C7 as stated fails: a factory that has the registry build another
    encoding and then raises leaves that encoding in the cache; and one
    that asks the registry for its own name before it raises leaves an
    entry for the name. *)
Lemma failed_construction_changes_cache_counterexample :
  (let r := get_encoding_at calls_back_then_raises recursion_limit "x" initial in
   r.2 = inl (OtherError "ConnectionError" "download failed") ∧
   ENCODINGS initial !! "y" = None ∧
   ENCODINGS r.1 !! "y" = Some (mkEncoding 3 [("name", "y")])) ∧
  (let r := get_encoding_at stores_then_raises recursion_limit "x" initial in
   r.2 = inl (OtherError "ConnectionError" "download failed") ∧
   ENCODINGS r.1 !! "x" = Some (mkEncoding 5 [("name", "x")])).
Proof. by split_and!. Qed.

(** An unknown name, in a world without callbacks. *)
Lemma unknown_encoding_plain (w : World) (calls : list call)
    (n : string) (s1 : State) (d : dict factory) :
  let s := run w calls initial in
  ensure_constructors w s = (s1, inr tt) →
  ENCODING_CONSTRUCTORS s1 = Some d →
  n ∉ dict_keys d →
  ∃ s' msg, get_encoding w n s = (s', inl (ValueError msg)) ∧
        msg = "Unknown encoding " +:+ n +:+ ". Plugins found: [" +:+
              join ", " (repr_str <$> iter_modules w) +:+ "]" ∧
        ENCODINGS s' = ENCODINGS s ∧
        (∀ m, m ∈ iter_modules w →
              ∃ pre post, msg = pre +:+ repr_str m +:+ post) ∧
        (∀ m, m ∈ iter_modules w → plain_name m = true →
              ∃ pre post, msg = pre +:+ "'" +:+ m +:+ "'" +:+ post).
Proof.
  intros s He Hd Hk.
  pose proof (Inv_run w calls initial (Inv_initial w)) as HI. fold s in HI.
  apply ensure_constructors_inv in He as [-> Hv].
  assert (ENCODINGS s !! n = None) as Hn.
  { destruct (ENCODINGS s !! n) as [enc|] eqn:Hn; [|done].
    destruct (inv_cache _ _ HI n enc Hn) as (d0 & Hd0 & Hk0).
    destruct (ensured_built w s d0 Hd0) as [He _]. rewrite He in Hd.
    by simplify_eq. }
  pose proof (construct_cases w n _ d Hd) as Hc.
  pose proof (inv_scan _ _ (Inv_ensured w s HI)) as Hs.
  rewrite get_encoding_miss, <- Hv by done.
  destruct (construct w n (ensured w s)) as [s2 r]. simpl in Hc.
  apply dict_get_None in Hk.
  inversion Hc; same_lhs.
  exists (set_plugin_modules_cache (Some (scanned w (ensured w s)))
            (add_events (scan_events (ensured w s)) (ensured w s))),
         (unknown_msg n (iter_modules w)).
  split_and!; [by rewrite Hs| | | |].
  - reflexivity.
  - simpl. apply ensured_ENCODINGS.
  - intros m Hm. by apply unknown_msg_mentions.
  - intros m Hm Hp. by apply unknown_msg_shows.
Qed.



(** C5 as stated fails: when the call builds the table and a plugin
    module, while it is imported, asks the registry for an encoding an
    earlier module has registered, [get_encoding] of an unknown name
    raises and leaves that encoding in the cache. *)
Lemma unknown_encoding_mutates_cache_counterexample :
  let r := get_encoding_at import_calls_back recursion_limit "q" initial in
  r.2 = inl (ValueError
    "Unknown encoding q. Plugins found: ['tiktoken_ext.a', 'tiktoken_ext.b']") ∧
  ENCODING_CONSTRUCTORS r.1 = Some [("x", 1); ("z", 3)] ∧
  ENCODINGS initial !! "x" = None ∧
  ENCODINGS r.1 !! "x" = Some (mkEncoding 4 [("name", "enc")]).
Proof. by split_and!. Qed.

(** ** A table build that fails *)




Section Duplicates.

Variable w : World.

(** The build in a world whose first clash is [x], registered by one of
    the modules [pre] and again by [m2]. *)
Lemma merge_modules_clash pre m2 post its1 x f1 f2 its2 :
  (∀ m, m ∈ pre → well_formed w m) →
  import_module w m2 = inr (mkModule (Some (its1 ++ (x, f2) :: its2))) →
  NoDup (dict_keys (contributed w pre ++ its1)) →
  dict_get x (contributed w pre) = Some f1 →
  merge_modules w (pre ++ m2 :: post) [] =
    (contributed w pre ++ its1, length pre + 1,
     Some (ValueError (duplicate_msg x m2))).
Proof.
  intros Hwf Hm2 Hnd Hx.
  rewrite merge_modules_app, merge_modules_ok; simpl; [|done|].
  - unfold merge_module. rewrite Hm2. simpl.
    rewrite merge_items_dup; [done|done|].
    rewrite dict_keys_app. apply elem_of_app. left.
    by eapply dict_get_Some_key.
  - rewrite dict_keys_app in Hnd. by apply NoDup_app in Hnd as (? & _ & _).
Qed.

Lemma perform_raises c s s' e :
  match c with
  | Get_encoding n => get_encoding w n s = (s', inl e)
  | List_encoding_names => list_encoding_names w s = (s', inl e)
  end →
  perform w c s = (s', inl e).
Proof. destruct c; unfold perform; run_monad; by intros ->. Qed.

End Duplicates.

(** C4, as the code has it.  When a module registers a name that an
    earlier module has registered, the build raises [ValueError] with a
    message naming the name and the later module, and so does the public
    operation that started it; the table keeps what was registered before
    the clash, the earlier module's factory for the name included, and a
    later [get_encoding] of the name builds from that factory and
    returns. *)
Theorem duplicate_name_fails_once (w : World) (calls : list call)
    (pre post : list string) (m2 : string)
    (its1 its2 : list (string * factory)) (x : string) (f1 f2 : factory) :
  let s := run w calls initial in
  ENCODING_CONSTRUCTORS s = None →
  iter_modules w = pre ++ m2 :: post →
  (∀ m, m ∈ pre → well_formed w m) →
  import_module w m2 = inr (mkModule (Some (its1 ++ (x, f2) :: its2))) →
  NoDup (dict_keys (contributed w pre ++ its1)) →
  dict_get x (contributed w pre) = Some f1 →
  ∃ s', _find_constructors w s = (s', inl (ValueError (duplicate_msg x m2))) ∧
        (∀ c, perform w c s = (s', inl (ValueError (duplicate_msg x m2)))) ∧
        ENCODING_CONSTRUCTORS s' = Some (contributed w pre ++ its1) ∧
        ∀ p, call_constructor w f1 (trace s') = inr p →
             Encoding_init w p (trace s' ++ [Factory x f1 true]) = None →
             ∃ s'' enc, get_encoding w x s' = (s'', inr enc) ∧
                        ENCODINGS s'' !! x = Some enc.
Proof.
  intros s Hd Hmods Hwf Hm2 Hnd Hx.
  pose proof (Inv_run w calls initial (Inv_initial w)) as HI. fold s in HI.
  pose proof (merge_modules_clash w pre m2 post its1 x f1 f2 its2
                Hwf Hm2 Hnd Hx) as Hb.
  assert (built w s = (contributed w pre ++ its1, length pre + 1,
                       Some (ValueError (duplicate_msg x m2)))) as Hbs.
  { unfold built. by rewrite (inv_scan _ _ HI), Hmods. }
  assert (∀ n, ENCODINGS s !! n = None) as Hempty.
  { intros n. destruct (ENCODINGS s !! n) as [enc|] eqn:Hn; [|done].
    destruct (inv_cache _ _ HI n enc Hn) as (d0 & Hd0 & _). congruence. }
  assert (ensured w s = after_build w s) as He
    by (unfold ensured; by rewrite Hd).
  assert (ensured_verdict w s = inl (ValueError (duplicate_msg x m2))) as Hv
    by (unfold ensured_verdict; by rewrite Hd, Hbs).
  assert (ENCODING_CONSTRUCTORS (after_build w s) =
            Some (contributed w pre ++ its1)) as Hd'
    by (simpl; by rewrite Hbs).
  exists (after_build w s). split_and!.
  - rewrite find_constructors_eq, Hbs by done. done.
  - intros c. apply perform_raises. destruct c as [n|].
    + rewrite get_encoding_miss, Hv, He by done. done.
    + rewrite list_encoding_names_eq, Hv, He. done.
  - done.
  - intros p Hp Hi.
    assert (ENCODINGS (after_build w s) !! x = None) as Hn by apply Hempty.
    destruct (ensured_built w _ _ Hd') as [He' Hv'].
    pose proof (construct_cases w x _ _ Hd') as Hc.
    rewrite get_encoding_miss, Hv', He' by done.
    destruct (construct w x (after_build w s)) as [s2 r]. cbn [fst snd] in Hc.
    pose proof (dict_get_app_l x f1 _ its1 Hx) as Hx'.
    inversion Hc; same_lhs.
    eexists _, _. split; [done|]. simpl. apply lookup_insert_eq.
Qed.

Lemma duplicate_name_fails_once_witness :
  ∃ s', _find_constructors clashing_plugins initial =
          (s', inl (ValueError (duplicate_msg "x" "tiktoken_ext.b"))) ∧
        (∀ c, perform clashing_plugins c initial =
                (s', inl (ValueError (duplicate_msg "x" "tiktoken_ext.b")))) ∧
        ENCODING_CONSTRUCTORS s' =
          Some (contributed clashing_plugins ["tiktoken_ext.a"] ++ [("z", 3)]) ∧
        ∀ p, call_constructor clashing_plugins 1 (trace s') = inr p →
             Encoding_init clashing_plugins p (trace s' ++ [Factory "x" 1 true]) =
               None →
             ∃ s'' enc, get_encoding clashing_plugins "x" s' = (s'', inr enc) ∧
                        ENCODINGS s'' !! "x" = Some enc.
Proof.
  apply (duplicate_name_fails_once clashing_plugins []
           ["tiktoken_ext.a"] [] "tiktoken_ext.b" [("z", 3)] [] "x" 1 4);
    [reflexivity|reflexivity| |reflexivity| |reflexivity].
  - intros m Hm. apply list_elem_of_singleton in Hm as ->.
    eexists; reflexivity.
  - exact (bool_decide_unpack (NoDup ["x"; "y"; "z"]) I).
Defined.

(** C4 as stated fails: after the build has failed on the duplicate
    ["x"], [get_encoding "x"] returns an encoding. *)
Lemma duplicate_name_never_constructible_counterexample :
  let r := get_encoding clashing_plugins "x" initial in
  r.2 = inl (ValueError "Duplicate encoding name x in tiktoken plugin tiktoken_ext.b") ∧
  (get_encoding clashing_plugins "x" r.1).2 =
    inr (mkEncoding 4 [("name", "enc")]).
Proof. by split. Qed.

(** ** Repeated calls *)

Lemma get_encoding_returns (w : World) n s s1 enc :
  get_encoding w n s = (s1, inr enc) → ENCODINGS s1 !! n = Some enc.
Proof.
  intros Hg. destruct (ENCODINGS s !! n) as [enc'|] eqn:Hn.
  - rewrite (get_encoding_hit w n s enc' Hn) in Hg. by simplify_eq.
  - pose proof (get_encoding_miss_cases w n s Hn) as Hc. rewrite Hg in Hc.
    cbn [fst snd] in Hc. inversion Hc; subst. simpl. apply lookup_insert_eq.
Qed.




(** ** Threads: the invariant *)

Lemma pending_unlocked n m : lock_owner m = None → pending n m = 0.
Proof. intros H. unfold pending. by rewrite H. Qed.

Lemma pending_holder n m tid th :
  lock_owner m = Some tid → threads m !! tid = Some th →
  pending n m = publishing n th.
Proof.
  intros Ho Hth. unfold pending, publishing. rewrite Ho. simpl. rewrite Hth.
  by destruct th as [n' []].
Qed.

Lemma lookup_update (ts : list thread) tid th th' tid' x :
  ts !! tid = Some th →
  <[tid := th']> ts !! tid' = Some x →
  (tid' = tid ∧ x = th') ∨ (tid' ≠ tid ∧ ts !! tid' = Some x).
Proof.
  intros Hth Hx. destruct (decide (tid' = tid)) as [->|Hne].
  - rewrite list_lookup_insert_eq in Hx by (by eapply lookup_lt_Some).
    left. by simplify_eq.
  - rewrite list_lookup_insert_ne in Hx by done. by right.
Qed.

Lemma lookup_update_eq (ts : list thread) tid th th' :
  ts !! tid = Some th → <[tid := th']> ts !! tid = Some th'.
Proof. intros Hth. apply list_lookup_insert_eq. by eapply lookup_lt_Some. Qed.

(** A thread outside the lock relies only on entries of the cache, and
    those stay. *)
Lemma thread_ok_stable s s' th :
  holds_lock (th_pc th) = false →
  ENCODINGS s ⊆ ENCODINGS s' →
  thread_ok s th → thread_ok s' th.
Proof.
  intros Hl Hsub. unfold thread_ok. destruct th as [n p]. simpl in *.
  destruct p as [| | | | | | |r|r]; try done.
  - intros [enc Henc]. exists enc. by eapply lookup_weaken.
  - destruct r as [e|enc]; [done|]. intros Henc. by eapply lookup_weaken.
Qed.

Section Machine.

Variable w : World.

Lemma pending_moved n' tid n p p' s' o' m :
  threads m !! tid = Some (mkThread n p) →
  (∀ t, t ≠ tid → (o' = Some t ↔ lock_owner m = Some t)) →
  pending n' (moved tid n p' s' o' m) =
    if decide (o' = Some tid) then publishing n' (mkThread n p')
    else if decide (lock_owner m = Some tid) then 0
    else pending n' m.
Proof.
  intros Hth Ho. destruct (decide (o' = Some tid)) as [->|Hne].
  - erewrite pending_holder; [done|done|]. simpl. by eapply lookup_update_eq.
  - destruct o' as [t|].
    + assert (t ≠ tid) as Ht by congruence.
      pose proof (proj1 (Ho t Ht) eq_refl) as Hm.
      rewrite decide_False by congruence.
      unfold pending. simpl. rewrite Hm. simpl.
      by rewrite list_lookup_insert_ne.
    + rewrite pending_unlocked by done.
      destruct (decide (lock_owner m = Some tid)); [done|].
      destruct (lock_owner m) as [t|] eqn:Hm; [|by rewrite pending_unlocked].
      assert (t ≠ tid) as Ht by congruence.
      by pose proof (proj2 (Ho t Ht) eq_refl).
Qed.

(** The invariant after a move, from what the move did. *)
Lemma MInv_moved tid n p p' s' o' m :
  MInv w m →
  threads m !! tid = Some (mkThread n p) →
  (holds_lock p' = true ↔ o' = Some tid) →
  (∀ t, t ≠ tid → (o' = Some t ↔ lock_owner m = Some t)) →
  (s' = shared m ∨
   (lock_owner m = Some tid ∧ ENCODINGS (shared m) ⊆ ENCODINGS s')) →
  thread_ok s' (mkThread n p') →
  scanned w s' = iter_modules w →
  (∀ d, ENCODING_CONSTRUCTORS s' = Some d → d = the_table w) →
  (∀ n' enc, ENCODINGS s' !! n' = Some enc →
             ∃ d, ENCODING_CONSTRUCTORS s' = Some d ∧ n' ∈ dict_keys d) →
  (∀ n', count (is_factory_call n') (trace s') =
         count (is_failed_attempt n') (trace s') + cached_count s' n' +
         pending n' (moved tid n p' s' o' m)) →
  (∀ n', count (is_built n') (trace s') =
         cached_count s' n' + pending n' (moved tid n p' s' o' m)) →
  MInv w (moved tid n p' s' o' m).
Proof.
  intros HI Hth Hlock Hother Hs Hok Hscan Htable Hcache Hfactory Hbuilt.
  split; simpl; try done.
  - intros t Ht. destruct (decide (t = tid)) as [->|Hne].
    + rewrite (lookup_update_eq _ _ _ _ Hth). eauto.
    + rewrite list_lookup_insert_ne by done.
      apply (minv_owner _ _ HI). by apply Hother.
  - intros t th Ht.
    destruct (lookup_update _ _ _ _ _ _ Hth Ht) as [[-> ->]|[Hne Ht']]; [done|].
    rewrite (minv_lock _ _ HI t th Ht'). symmetry. by apply Hother.
  - intros t th Ht.
    destruct (lookup_update _ _ _ _ _ _ Hth Ht) as [[-> ->]|[Hne Ht']]; [done|].
    pose proof (minv_thread _ _ HI t th Ht') as Hokt.
    destruct Hs as [->|[Ho Hsub]]; [done|].
    eapply thread_ok_stable; [|done|done].
    destruct (holds_lock (th_pc th)) eqn:Hl; [|done].
    apply (minv_lock _ _ HI t th Ht') in Hl. congruence.
Qed.

Lemma goto_moved tid th p s' m :
  goto tid th p s' m = moved tid (th_name th) p s' (lock_owner m) m.
Proof. done. Qed.

Lemma set_lock_owner_moved o tid th p s' m :
  set_lock_owner o (goto tid th p s' m) = moved tid (th_name th) p s' o m.
Proof. done. Qed.

Lemma cached_count_insert s n enc n' :
  ENCODINGS s !! n = None →
  cached_count (set_ENCODINGS (<[n := enc]> (ENCODINGS s)) s) n' =
    cached_count s n' + (if decide (n = n') then 1 else 0).
Proof.
  intros Hn. unfold cached_count. simpl.
  destruct (decide (n = n')) as [<-|Hne].
  - by rewrite lookup_insert_eq, Hn.
  - rewrite lookup_insert_ne by done. lia.
Qed.

(** While nothing is pending, the shared state satisfies the invariant
    of sequential runs. *)
Lemma MInv_Inv m : MInv w m → (∀ n, pending n m = 0) → Inv w (shared m).
Proof.
  intros [_ _ _ H1 H2 H3 H4 H5] Hp. split; try done.
  - intros n. rewrite H4, Hp. lia.
  - intros n. rewrite H5, Hp. lia.
Qed.

(** A move that changes neither the shared state nor the lock, between
    two points on the same side of the lock, neither of them line 82. *)
Lemma MInv_moved_pc tid n p p' m :
  MInv w m →
  threads m !! tid = Some (mkThread n p) →
  holds_lock p' = holds_lock p →
  publishing n (mkThread n p) = 0 →
  publishing n (mkThread n p') = 0 →
  thread_ok (shared m) (mkThread n p') →
  MInv w (moved tid n p' (shared m) (lock_owner m) m).
Proof.
  intros HI Hth Hl Hp Hp' Hok.
  pose proof (minv_lock _ _ HI tid _ Hth) as Hlk. simpl in Hlk.
  assert (∀ n', pending n' (moved tid n p' (shared m) (lock_owner m) m) =
                pending n' m) as Hpend.
  { intros n'. rewrite (pending_moved n' tid n p) by done.
    assert (∀ q, publishing n (mkThread n q) = 0 →
                 publishing n' (mkThread n q) = 0) as Hq.
    { intros q. unfold publishing. simpl. destruct q; try done.
      by rewrite decide_True. }
    destruct (decide (lock_owner m = Some tid)) as [Ho|Ho].
    - rewrite (pending_holder _ _ _ _ Ho Hth). by rewrite !Hq.
    - done. }
  apply (MInv_moved tid n p); try done.
  - by rewrite Hl.
  - by left.
  - apply HI.
  - apply HI.
  - apply HI.
  - intros n'. rewrite Hpend. apply HI.
  - intros n'. rewrite Hpend. apply HI.
Qed.

Ltac by_Inv H :=
  first [ apply (inv_scan _ _ H) | apply (inv_table _ _ H)
        | apply (inv_cache _ _ H) | idtac ].

(** The thread holding the lock, away from line 82: nothing is pending. *)
Lemma holder_not_publishing tid n p m :
  MInv w m →
  threads m !! tid = Some (mkThread n p) →
  holds_lock p = true →
  (∀ enc, p ≠ At_publish enc) →
  lock_owner m = Some tid ∧ Inv w (shared m).
Proof.
  intros HI Hth Hl Hp.
  assert (lock_owner m = Some tid) as Ho
    by (by apply (minv_lock _ _ HI tid _ Hth)).
  split; [done|]. apply MInv_Inv; [done|]. intros n'.
  rewrite (pending_holder _ _ _ _ Ho Hth). unfold publishing. simpl.
  destruct p; try done. by destruct (Hp enc).
Qed.

Lemma MInv_ensure tid n m :
  MInv w m →
  threads m !! tid = Some (mkThread n At_ensure) →
  MInv w (moved tid n (outcome (ensured_verdict w (shared m)) (λ _, At_construct))
            (ensured w (shared m)) (lock_owner m) m).
Proof.
  intros HI Hth.
  destruct (holder_not_publishing tid n _ m HI Hth) as [Ho HIs]; [done..|].
  pose proof (minv_thread _ _ HI tid _ Hth) as Hok. unfold thread_ok in Hok.
  simpl in Hok. apply Inv_ensured in HIs.
  set (p' := outcome _ _).
  assert (holds_lock p' = true ∧ ∀ n', publishing n' (mkThread n p') = 0)
    as [Hl Hp] by (unfold p'; by destruct (ensured_verdict w (shared m))).
  apply (MInv_moved tid n At_ensure); try done; by_Inv HIs.
  - right. split; [done|]. by rewrite ensured_ENCODINGS.
  - unfold p', thread_ok. destruct (ensured_verdict w (shared m)); simpl; [done|].
    rewrite ensured_ENCODINGS. split; [done|apply ensured_is_Some].
  - intros n'. rewrite (pending_moved n' tid n At_ensure) by done.
    rewrite decide_True, Hp, Nat.add_0_r by done. apply HIs.
  - intros n'. rewrite (pending_moved n' tid n At_ensure) by done.
    rewrite decide_True, Hp, Nat.add_0_r by done. apply HIs.
Qed.

Lemma MInv_construct tid n m :
  MInv w m →
  threads m !! tid = Some (mkThread n At_construct) →
  MInv w (moved tid n (outcome (construct w n (shared m)).2 At_publish)
            (construct w n (shared m)).1 (lock_owner m) m).
Proof.
  intros HI Hth.
  destruct (holder_not_publishing tid n _ m HI Hth) as [Ho HIs]; [done..|].
  pose proof (minv_thread _ _ HI tid _ Hth) as Hok. unfold thread_ok in Hok.
  simpl in Hok. destruct Hok as [Hn [d Hd]].
  pose proof (construct_cases w n _ d Hd) as Hc.
  destruct (construct w n (shared m)) as [s' [e|enc]]; cbn [fst snd] in *.
  - pose proof (Inv_construct_raises w n _ _ _ HIs Hc) as HIs'.
    destruct (construct_spec_frame w n _ _ _ Hc) as [Hcache Htable].
    apply (MInv_moved tid n At_construct); try done; by_Inv HIs'.
    + right. split; [done|]. by rewrite Hcache.
    + intros n'. rewrite (pending_moved n' tid n At_construct) by done.
      rewrite decide_True, Nat.add_0_r by done. apply HIs'.
    + intros n'. rewrite (pending_moved n' tid n At_construct) by done.
      rewrite decide_True, Nat.add_0_r by done. apply HIs'.
  - pose proof (Inv_constructed w n _ _ _ HIs Hn Hc) as HIs'.
    destruct (construct_spec_frame w n _ _ _ Hc) as [Hcache Htable].
    assert (ENCODINGS s' !! n = None) as Hn' by (by rewrite Hcache).
    assert (∃ d', ENCODING_CONSTRUCTORS s' = Some d' ∧ n ∈ dict_keys d') as Hreg.
    { inversion Hc; subst. exists d0. split; [done|].
      by eapply dict_get_Some_key. }
    apply (MInv_moved tid n At_construct); try done.
    + right. split; [done|]. by rewrite Hcache.
    + apply (inv_scan _ _ HIs').
    + apply (inv_table _ _ HIs').
    + intros n' enc' Hn''. rewrite Htable. apply (inv_cache _ _ HIs n' enc').
      by rewrite <- Hcache.
    + intros n'. rewrite (pending_moved n' tid n At_construct) by done.
      rewrite decide_True by done. unfold publishing. simpl.
      pose proof (inv_factory _ _ HIs' n') as Hf. simpl in Hf.
      rewrite cached_count_insert in Hf by done. lia.
    + intros n'. rewrite (pending_moved n' tid n At_construct) by done.
      rewrite decide_True by done. unfold publishing. simpl.
      pose proof (inv_built _ _ HIs' n') as Hf. simpl in Hf.
      rewrite cached_count_insert in Hf by done. lia.
Qed.

Lemma MInv_publish tid n enc m :
  MInv w m →
  threads m !! tid = Some (mkThread n (At_publish enc)) →
  MInv w (moved tid n (At_release (inr enc)) (publish n enc (shared m)).1
            (lock_owner m) m).
Proof.
  intros HI Hth.
  assert (lock_owner m = Some tid) as Ho
    by (by apply (minv_lock _ _ HI tid _ Hth)).
  pose proof (minv_thread _ _ HI tid _ Hth) as Hok. unfold thread_ok in Hok.
  simpl in Hok. destruct Hok as [Hn (d & Hd & Hk)].
  assert (∀ n', pending n' m = if decide (n = n') then 1 else 0) as Hpend.
  { intros n'. by rewrite (pending_holder _ _ _ _ Ho Hth). }
  change (publish n enc (shared m)).1
    with (set_ENCODINGS (<[n := enc]> (ENCODINGS (shared m))) (shared m)).
  apply (MInv_moved tid n (At_publish enc)); try done.
  - right. split; [done|]. simpl. by apply insert_subseteq.
  - unfold thread_ok. simpl. apply lookup_insert_eq.
  - apply HI.
  - apply HI.
  - simpl. intros n' enc'. destruct (decide (n = n')) as [<-|Hne]; [by eauto|].
    rewrite lookup_insert_ne by done. apply (minv_cache _ _ HI).
  - intros n'. rewrite (pending_moved n' tid n (At_publish enc)) by done.
    rewrite decide_True, cached_count_insert by done. unfold publishing. simpl.
    pose proof (minv_factory _ _ HI n') as Hf. rewrite Hpend in Hf. lia.
  - intros n'. rewrite (pending_moved n' tid n (At_publish enc)) by done.
    rewrite decide_True, cached_count_insert by done. unfold publishing. simpl.
    pose proof (minv_built _ _ HI n') as Hf. rewrite Hpend in Hf. lia.
Qed.

Lemma MInv_acquire tid n m :
  MInv w m →
  threads m !! tid = Some (mkThread n At_acquire) →
  lock_owner m = None →
  MInv w (moved tid n At_recheck (shared m) (Some tid) m).
Proof.
  intros HI Hth Ho.
  apply (MInv_moved tid n At_acquire); try done.
  - intros t Ht. rewrite Ho. split; intros; simplify_eq.
  - by left.
  - apply HI.
  - apply HI.
  - apply HI.
  - intros n'. rewrite (pending_moved n' tid n At_acquire)
      by (try done; intros t Ht; rewrite Ho; split; intros; simplify_eq).
    rewrite decide_True by done. unfold publishing. simpl.
    pose proof (minv_factory _ _ HI n') as Hf.
    by rewrite pending_unlocked in Hf.
  - intros n'. rewrite (pending_moved n' tid n At_acquire)
      by (try done; intros t Ht; rewrite Ho; split; intros; simplify_eq).
    rewrite decide_True by done. unfold publishing. simpl.
    pose proof (minv_built _ _ HI n') as Hf.
    by rewrite pending_unlocked in Hf.
Qed.

Lemma MInv_release tid n r m :
  MInv w m →
  threads m !! tid = Some (mkThread n (At_release r)) →
  MInv w (moved tid n (Finished r) (shared m) None m).
Proof.
  intros HI Hth.
  destruct (holder_not_publishing tid n _ m HI Hth) as [Ho HIs]; [done..|].
  assert (∀ t, t ≠ tid → None = Some t ↔ lock_owner m = Some t) as Hother.
  { intros t Ht. rewrite Ho. split; intros; simplify_eq. }
  apply (MInv_moved tid n (At_release r)); try done; by_Inv HIs.
  - by left.
  - apply (minv_thread _ _ HI tid _ Hth).
  - intros n'. rewrite (pending_moved n' tid n (At_release r)) by done.
    rewrite decide_False, decide_True, Nat.add_0_r by done. apply HIs.
  - intros n'. rewrite (pending_moved n' tid n (At_release r)) by done.
    rewrite decide_False, decide_True, Nat.add_0_r by done. apply HIs.
Qed.

(** Every step keeps the invariant. *)
Lemma MInv_step_thread tid m m' :
  MInv w m → step_thread w tid m = Some m' → MInv w m'.
Proof.
  intros HI Hstep. unfold step_thread in Hstep.
  destruct (threads m !! tid) as [[n p]|] eqn:Hth; [|done]. simpl in Hstep.
  pose proof (minv_thread _ _ HI tid _ Hth) as Hok. unfold thread_ok in Hok.
  simpl in Hok.
  destruct p as [| | | | | |enc|r|r].
  - injection Hstep as <-. rewrite goto_moved. simpl.
    apply (MInv_moved_pc tid n At_fast_test); try done;
      unfold thread_ok; simpl;
      destruct (ENCODINGS (shared m) !! n) eqn:Hn; simpl; eauto.
  - injection Hstep as <-. rewrite goto_moved. simpl.
    apply (MInv_moved_pc tid n At_fast_return); try done.
    destruct Hok as [enc Henc]. unfold thread_ok. simpl. by rewrite Henc.
  - destruct (lock_owner m) eqn:Ho; [done|]. injection Hstep as <-.
    rewrite set_lock_owner_moved. simpl. by apply MInv_acquire.
  - injection Hstep as <-. rewrite goto_moved. simpl.
    apply (MInv_moved_pc tid n At_recheck); try done;
      unfold thread_ok, publishing; simpl;
      destruct (ENCODINGS (shared m) !! n) eqn:Hn; simpl; eauto.
  - rewrite ensure_constructors_eq in Hstep. injection Hstep as <-.
    rewrite goto_moved. simpl. by apply MInv_ensure.
  - pose proof (MInv_construct tid n m HI Hth) as HI'.
    destruct (construct w n (shared m)) as [s' r]. injection Hstep as <-.
    by rewrite goto_moved.
  - injection Hstep as <-. rewrite goto_moved. simpl. by apply MInv_publish.
  - injection Hstep as <-. rewrite set_lock_owner_moved. simpl.
    by apply MInv_release.
  - done.
Qed.

Lemma MInv_spawn s names : Inv w s → MInv w (spawn s names).
Proof.
  intros [H1 H2 H3 H4 H5]. split; simpl; try done.
  - intros tid th Hth. apply list_lookup_fmap_Some in Hth as (n & -> & _).
    done.
  - intros tid th Hth. apply list_lookup_fmap_Some in Hth as (n & -> & _).
    done.
  - intros n. rewrite pending_unlocked by done. rewrite H4. lia.
  - intros n. rewrite pending_unlocked by done. rewrite H5. lia.
Qed.

Lemma MInv_reachable s names m :
  Inv w s → rtc (step w) (spawn s names) m → MInv w m.
Proof.
  intros HI Hr. apply rtc_nsteps in Hr as [k Hr].
  revert m Hr. induction k as [|k IH]; intros m Hr.
  - inversion Hr; subst. by apply MInv_spawn.
  - apply nsteps_inv_r in Hr as (m1 & Hr & [tid Hstep]).
    eapply MInv_step_thread; [|done]. by apply IH.
Qed.

(** *** Consequences *)

Lemma pending_le_1 n m : pending n m ≤ 1.
Proof.
  unfold pending. destruct (lock_owner m ≫= _) as [[n' []]|]; try lia.
  destruct (decide (n' = n)); lia.
Qed.

Lemma pending_cached n m :
  MInv w m → cached_count (shared m) n + pending n m ≤ 1.
Proof.
  intros HI. pose proof (pending_le_1 n m) as Hle.
  destruct (lock_owner m) as [tid|] eqn:Ho;
    [|rewrite pending_unlocked by done; unfold cached_count;
      destruct (ENCODINGS (shared m) !! n); lia].
  destruct (minv_owner _ _ HI tid Ho) as [[n' p] Hth].
  rewrite (pending_holder _ _ _ _ Ho Hth) in *. unfold publishing in *.
  simpl in *.
  pose proof (minv_thread _ _ HI tid _ Hth) as Hok. unfold thread_ok in Hok.
  simpl in Hok.
  destruct p; try (unfold cached_count; destruct (ENCODINGS (shared m) !! n); lia).
  destruct (decide (n' = n)) as [->|];
    [|unfold cached_count; destruct (ENCODINGS (shared m) !! n); lia].
  destruct Hok as [Hn _]. unfold cached_count. rewrite Hn. lia.
Qed.

Lemma built_at_most_once n m :
  MInv w m → count (is_built n) (trace (shared m)) ≤ 1.
Proof.
  intros HI. rewrite (minv_built _ _ HI). by apply pending_cached.
Qed.

Lemma factory_calls_bound n m :
  MInv w m →
  count (is_factory_call n) (trace (shared m)) =
    count (is_failed_attempt n) (trace (shared m)) +
    count (is_built n) (trace (shared m)).
Proof.
  intros HI. rewrite (minv_factory _ _ HI), (minv_built _ _ HI). lia.
Qed.

(** A thread that has an object has the one the cache holds. *)
Lemma finished_with_cached tid th enc m :
  MInv w m →
  threads m !! tid = Some th →
  th_pc th = Finished (inr enc) →
  ENCODINGS (shared m) !! th_name th = Some enc.
Proof.
  intros HI Hth Hpc. pose proof (minv_thread _ _ HI tid _ Hth) as Hok.
  unfold thread_ok in Hok. by rewrite Hpc in Hok.
Qed.

Lemma same_object tid tid' th th' enc enc' m :
  MInv w m →
  threads m !! tid = Some th → threads m !! tid' = Some th' →
  th_name th = th_name th' →
  th_pc th = Finished (inr enc) → th_pc th' = Finished (inr enc') →
  enc = enc'.
Proof.
  intros HI Hth Hth' Hn Hp Hp'.
  pose proof (finished_with_cached _ _ _ _ HI Hth Hp) as H1.
  pose proof (finished_with_cached _ _ _ _ HI Hth' Hp') as H2.
  rewrite Hn in H1. congruence.
Qed.

(** No deadlock: while a thread has not finished, some thread can move. *)
Lemma some_thread_moves tid th m :
  MInv w m →
  threads m !! tid = Some th → finished (th_pc th) = false →
  ∃ tid' m', step_thread w tid' m = Some m'.
Proof.
  intros HI Hth Hf.
  assert (∀ t th', threads m !! t = Some th' → finished (th_pc th') = false →
            (th_pc th' = At_acquire → lock_owner m = None) →
            ∃ m', step_thread w t m = Some m') as Hmove.
  { intros t [n p] Ht Hfin Hacq. unfold step_thread. rewrite Ht. simpl in *.
    destruct p; try done; eauto.
    - rewrite Hacq by done. eauto.
    - destruct (ensure_constructors w (shared m)). eauto.
    - destruct (construct w n (shared m)). eauto. }
  destruct (lock_owner m) as [t|] eqn:Ho.
  - destruct (minv_owner _ _ HI t Ho) as [th' Ht].
    pose proof (proj2 (minv_lock _ _ HI t th' Ht) Ho) as Hl.
    destruct (Hmove t th' Ht) as [m' Hm']; [by destruct (th_pc th')| |by eauto].
    intros Hacq. by rewrite Hacq in Hl.
  - destruct (Hmove tid th Hth Hf) as [m' Hm']; by eauto.
Qed.

Lemma sum_list_update (f : thread → nat) (l : list thread) i x y :
  l !! i = Some x →
  sum_list (f <$> <[i := y]> l) + f x = sum_list (f <$> l) + f y.
Proof.
  revert i. induction l as [|a l IH]; intros [|i] Hi; simpl in *;
    simplify_eq.
  - lia.
  - specialize (IH i Hi). unfold fmap in IH. lia.
Qed.

(** Every step brings the machine closer to the end. *)
Lemma step_thread_measure tid m m' :
  step_thread w tid m = Some m' → measure m' < measure m.
Proof.
  unfold step_thread. destruct (threads m !! tid) as [[n p]|] eqn:Hth; [|done].
  simpl. intros Hstep.
  assert (∀ p' s' o', remaining p' < remaining p →
            measure (moved tid n p' s' o' m) < measure m) as Hlt.
  { intros p' s' o' Hr. unfold measure. simpl.
    pose proof (sum_list_update (remaining ∘ th_pc) _ _ _ (mkThread n p') Hth)
      as Hs. simpl in Hs. lia. }
  destruct p as [| | | | | |enc|r|r].
  - injection Hstep as <-. apply Hlt.
    destruct (ENCODINGS (shared m) !! n); simpl; lia.
  - injection Hstep as <-. apply Hlt. simpl. lia.
  - destruct (lock_owner m); [done|]. injection Hstep as <-. apply Hlt.
    simpl. lia.
  - injection Hstep as <-. apply Hlt.
    destruct (ENCODINGS (shared m) !! n); simpl; lia.
  - destruct (ensure_constructors w (shared m)) as [s' [e|[]]].
    all: injection Hstep as <-; apply Hlt; simpl; lia.
  - destruct (construct w n (shared m)) as [s' [e|enc]].
    all: injection Hstep as <-; apply Hlt; simpl; lia.
  - injection Hstep as <-. apply Hlt. simpl. lia.
  - injection Hstep as <-. apply Hlt. simpl. lia.
  - done.
Qed.

Lemma nsteps_measure k m m' :
  nsteps (step w) k m m' → k + measure m' ≤ measure m.
Proof.
  induction 1 as [|k m1 m2 m3 [tid Hstep] _ IH]; [lia|].
  apply step_thread_measure in Hstep. lia.
Qed.

(** *** A name whose construction cannot fail *)

Lemma dependable_ensured n s :
  dependable w n → scanned w s = iter_modules w →
  ensured_verdict w s = inr tt.
Proof.
  intros [Hb _] Hs. unfold ensured_verdict, built.
  destruct (ENCODING_CONSTRUCTORS s); [done|]. by rewrite Hs, Hb.
Qed.

Lemma dependable_construct n s :
  dependable w n →
  ENCODING_CONSTRUCTORS s = Some (the_table w) →
  ∃ f p, construct w n s =
           (add_events [Factory n f true; Builder n true] s,
            inr (mkEncoding (S (length (trace s))) p)).
Proof.
  intros (_ & f & Hf & Hcall) Hd.
  destruct (Hcall (trace s)) as (p & Hp & Hinit).
  specialize (Hinit (trace s ++ [Factory n f true])).
  pose proof (construct_cases w n s _ Hd) as Hc.
  destruct (construct w n s) as [s' r]. cbn [fst snd] in Hc.
  inversion Hc; same_lhs. eauto.
Qed.

Lemma DInv_moved n tid n0 p p' s' o' m :
  DInv n m →
  threads m !! tid = Some (mkThread n0 p) →
  count (is_failed_attempt n) (trace s') = 0 →
  (n0 = n → ∀ e, p' ≠ At_release (inl e) ∧ p' ≠ Finished (inl e)) →
  DInv n (moved tid n0 p' s' o' m).
Proof.
  intros [Hf Ht] Hth Hf' Hp'. split; [done|]. simpl.
  intros t th Hl Hn.
  destruct (lookup_update _ _ _ _ _ _ Hth Hl) as [[-> ->]|[Hne Hl']].
  - by apply Hp'.
  - by apply (Ht t).
Qed.

Lemma DInv_step_thread n tid m m' :
  dependable w n → MInv w m → DInv n m →
  step_thread w tid m = Some m' → DInv n m'.
Proof.
  intros Hdep HI HD Hstep. unfold step_thread in Hstep.
  destruct (threads m !! tid) as [[n0 p]|] eqn:Hth; [|done]. simpl in Hstep.
  pose proof (minv_thread _ _ HI tid _ Hth) as Hok. unfold thread_ok in Hok.
  simpl in Hok.
  pose proof (dinv_failed _ _ HD) as Hfail.
  pose proof (dinv_thread _ _ HD tid _ Hth) as Hpc. simpl in Hpc.
  destruct p as [| | | | | |enc|r|r].
  - injection Hstep as <-. rewrite goto_moved.
    apply (DInv_moved n tid n0 At_fast_test); try done.
    by destruct (ENCODINGS (shared m) !! n0).
  - injection Hstep as <-. rewrite goto_moved.
    apply (DInv_moved n tid n0 At_fast_return); try done.
    destruct Hok as [enc ->]. done.
  - destruct (lock_owner m); [done|]. injection Hstep as <-.
    rewrite set_lock_owner_moved.
    by apply (DInv_moved n tid n0 At_acquire).
  - injection Hstep as <-. rewrite goto_moved.
    apply (DInv_moved n tid n0 At_recheck); try done.
    by destruct (ENCODINGS (shared m) !! n0).
  - rewrite ensure_constructors_eq in Hstep. injection Hstep as <-.
    rewrite goto_moved.
    apply (DInv_moved n tid n0 At_ensure); try done.
    + by rewrite count_ensured by auto with registry.
    + intros _ e.
      by rewrite (dependable_ensured n _ Hdep (minv_scan _ _ HI)).
  - destruct Hok as [Hn0 [d Hd]].
    pose proof (minv_table _ _ HI d Hd) as ->.
    destruct (decide (n0 = n)) as [->|Hne].
    + destruct (dependable_construct n _ Hdep Hd) as (f & p & Hc).
      rewrite Hc in Hstep. injection Hstep as <-. rewrite goto_moved.
      apply (DInv_moved n tid n At_construct); try done.
      simpl. rewrite count_app, !count_cons, count_nil, Hfail. done.
    + pose proof (construct_cases w n0 _ _ Hd) as Hc.
      destruct (construct w n0 (shared m)) as [s' r]. cbn [fst snd] in Hc.
      injection Hstep as <-. rewrite goto_moved.
      apply (DInv_moved n tid n0 At_construct); try done.
      inversion Hc; subst; simpl;
        rewrite count_app, ?count_cons, ?count_nil, Hfail; simpl;
        rewrite ?bool_decide_eq_false_2 by done; try done.
      by rewrite count_scan_events by auto with registry.
  - injection Hstep as <-. rewrite goto_moved.
    by apply (DInv_moved n tid n0 (At_publish enc)).
  - injection Hstep as <-. rewrite set_lock_owner_moved.
    apply (DInv_moved n tid n0 (At_release r)); try done.
    intros Hn e. specialize (Hpc Hn e). destruct Hpc as [Hr _].
    split; [done|]. intros [= ->]. done.
  - done.
Qed.

Lemma DInv_spawn n s names :
  count (is_failed_attempt n) (trace s) = 0 → DInv n (spawn s names).
Proof.
  intros Hf. split; [done|]. simpl. intros tid th Hth _ e.
  apply list_lookup_fmap_Some in Hth as (n' & -> & _). done.
Qed.

Lemma DInv_reachable n s names m :
  dependable w n → Inv w s →
  count (is_failed_attempt n) (trace s) = 0 →
  rtc (step w) (spawn s names) m → DInv n m.
Proof.
  intros Hdep HI Hf Hr. apply rtc_nsteps in Hr as [k Hr].
  revert m Hr. induction k as [|k IH]; intros m Hr.
  - inversion Hr; subst. by apply DInv_spawn.
  - apply nsteps_inv_r in Hr as (m1 & Hr & [tid Hstep]).
    eapply DInv_step_thread; [done| |by apply IH|done].
    eapply MInv_reachable; [done|]. by eapply rtc_nsteps_2.
Qed.

(** Without a failed attempt, every call of the builder built. *)
Lemma builder_calls_built n tr :
  count (is_failed_attempt n) tr = 0 →
  count (is_builder_call n) tr = count (is_built n) tr.
Proof.
  induction tr as [|e tr IH]; [done|]. rewrite !count_cons. intros Hf.
  rewrite IH by lia.
  destruct e as [| |n' f ok|n' ok]; simpl in *; try done.
  destruct ok; [done|]. destruct (bool_decide (n' = n)); simpl in *; lia.
Qed.

Lemma exec_reachable schedule : ∀ m m',
  exec w schedule m = Some m' → rtc (step w) m m'.
Proof.
  induction schedule as [|tid schedule IH]; intros m m'; simpl.
  - by intros [= ->].
  - destruct (step_thread w tid m) as [m1|] eqn:Hstep; [|done]. simpl.
    intros Hexec. eapply rtc_l; [by exists tid|by apply IH].
Qed.

Lemma measure_spawn s names : measure (spawn s names) = 7 * length names.
Proof.
  unfold measure. simpl. induction names as [|n names IH]; [done|].
  rewrite !fmap_cons. cbn [sum_list sum_list_with length].
  rewrite IH. simpl. lia.
Qed.

Lemma all_finished_when_stuck m :
  MInv w m →
  (∀ tid, step_thread w tid m = None) →
  ∀ tid th, threads m !! tid = Some th → finished (th_pc th) = true.
Proof.
  intros HI Hstuck tid th Hth.
  destruct (finished (th_pc th)) eqn:Hf; [done|].
  destruct (some_thread_moves tid th m HI Hth Hf) as (tid' & m' & Hstep).
  by rewrite Hstuck in Hstep.
Qed.

Lemma step_thread_subseteq tid m m' :
  MInv w m → step_thread w tid m = Some m' →
  ENCODINGS (shared m) ⊆ ENCODINGS (shared m').
Proof.
  intros HI Hstep. unfold step_thread in Hstep.
  destruct (threads m !! tid) as [[n p]|] eqn:Hth; [|done]. simpl in Hstep.
  pose proof (minv_thread _ _ HI tid _ Hth) as Hok. unfold thread_ok in Hok.
  simpl in Hok.
  destruct p as [| | | | | |enc|r|r]; try (by injection Hstep as <-).
  - destruct (lock_owner m); [done|]. by injection Hstep as <-.
  - rewrite ensure_constructors_eq in Hstep. injection Hstep as <-. simpl.
    by rewrite ensured_ENCODINGS.
  - destruct Hok as [_ [d Hd]].
    pose proof (construct_cases w n _ _ Hd) as Hc.
    destruct (construct w n (shared m)) as [s' r]. cbn [fst snd] in Hc.
    injection Hstep as <-. simpl.
    by destruct (construct_spec_frame w n _ _ _ Hc) as [-> _].
  - injection Hstep as <-. simpl. apply insert_subseteq. apply Hok.
  - done.
Qed.

End Machine.

(** ** Concurrent calls *)



(** C9 as stated fails.  With a factory for ["x"] that has the registry
    build ["y"] and then ["x"] itself, one call of [get_encoding] adds
    two entries to an empty cache; and the thread making it, at line 82,
    finds under ["x"] the object its nested call stored and puts another
    in its place. *)
Lemma cache_entry_replaced_counterexample :
  (let s' := after_at calls_back recursion_limit (Get_encoding "x") initial in
   ENCODINGS initial = ∅ ∧
   ENCODINGS s' !! "x" = Some (mkEncoding 7 [("name", "x")]) ∧
   ENCODINGS s' !! "y" = Some (mkEncoding 3 [("name", "y")])) ∧
  ∃ m m', exec_at calls_back recursion_limit [0; 0; 0; 0; 0]
            (spawn initial ["x"]) = Some m ∧
          threads m = [mkThread "x" (At_publish (mkEncoding 7 [("name", "x")]))] ∧
          step_thread_at calls_back recursion_limit 0 m = Some m' ∧
          ENCODINGS (shared m) !! "x" = Some (mkEncoding 5 [("name", "x")]) ∧
          ENCODINGS (shared m') !! "x" = Some (mkEncoding 7 [("name", "x")]).
Proof.
  split; [by split_and!|]. eexists _, _. by split_and!.
Qed.

(** The calls of threads in a world without callbacks. *)
Lemma concurrent_calls_plain (w : World) (calls : list call)
    (names : list string) (m : Machine) :
  rtc (step w) (spawn (run w calls initial) names) m →
  (∀ n, count (is_built n) (trace (shared m)) ≤ 1 ∧
        count (is_factory_call n) (trace (shared m)) =
          count (is_failed_attempt n) (trace (shared m)) +
          count (is_built n) (trace (shared m))) ∧
  (∀ tid tid' th th' enc enc',
     threads m !! tid = Some th → threads m !! tid' = Some th' →
     th_name th = th_name th' →
     th_pc th = Finished (inr enc) → th_pc th' = Finished (inr enc') →
     enc = enc') ∧
  ((∀ tid, step_thread w tid m = None) →
   ∀ tid th, threads m !! tid = Some th → finished (th_pc th) = true) ∧
  (measure m ≤ 7 * length names ∧
   ∀ k m', nsteps (step w) k m m' → k + measure m' ≤ measure m) ∧
  (∀ n, dependable w n →
     count (is_failed_attempt n) (trace (run w calls initial)) = 0 →
     count (is_factory_call n) (trace (shared m)) ≤ 1 ∧
     count (is_builder_call n) (trace (shared m)) ≤ 1 ∧
     ∀ tid th r, threads m !! tid = Some th → th_name th = n →
                 th_pc th = Finished r →
                 ∃ enc, r = inr enc ∧
                        ENCODINGS (shared m) !! n = Some enc ∧
                        count (is_factory_call n) (trace (shared m)) = 1 ∧
                        count (is_builder_call n) (trace (shared m)) = 1).
Proof.
  intros Hr.
  pose proof (Inv_run w calls initial (Inv_initial w)) as HIs.
  pose proof (MInv_reachable w _ _ _ HIs Hr) as HI.
  split_and!.
  - intros n. split; [by apply (built_at_most_once w)|by apply (factory_calls_bound w)].
  - intros tid tid' th th' enc enc'. by apply (same_object w).
  - by apply (all_finished_when_stuck w).
  - apply rtc_nsteps in Hr as [k Hr]. apply (nsteps_measure w) in Hr.
    rewrite measure_spawn in Hr. lia.
  - intros k m'. apply (nsteps_measure w).
  - intros n Hdep Hf0.
    pose proof (DInv_reachable w n _ _ _ Hdep HIs Hf0 Hr) as HD.
    pose proof (dinv_failed _ _ HD) as Hf.
    pose proof (built_at_most_once w n m HI) as Hb.
    pose proof (factory_calls_bound w n m HI) as Hc.
    pose proof (builder_calls_built n _ Hf) as Hbc.
    split_and!; [lia..|].
    intros tid th r Hth Hn Hpc.
    destruct r as [e|enc]; [by destruct (dinv_thread _ _ HD tid th Hth Hn e)|].
    pose proof (finished_with_cached w tid th enc m HI Hth Hpc) as Hcache.
    rewrite Hn in Hcache.
    pose proof (minv_built _ _ HI n) as Hbuilt.
    unfold cached_count in Hbuilt. rewrite Hcache in Hbuilt.
    exists enc. split_and!; [done|done|lia..].
Qed.




(** ** Properties kept by every operation *)

Section Stable.

Variable w : World.

(** With the table unset, line 73 raises [TypeError] and nothing changes;
    [get_encoding] never gets there, a thread of the machine started in
    an arbitrary state could. *)
Lemma construct_unset n s :
  ENCODING_CONSTRUCTORS s = None →
  ∃ e, construct w n s = (s, inl e).
Proof.
  intros Hd. unfold construct, the_constructors. run_monad. rewrite Hd. eauto.
Qed.

Lemma stable_get_encoding P n s :
  stable w P → P s → P (get_encoding w n s).1.
Proof.
  intros [He Hc Hp] HP. destruct (ENCODINGS s !! n) as [enc|] eqn:Hn.
  - by rewrite (get_encoding_hit w n s enc).
  - destruct (get_encoding_miss_cases w n s Hn); eauto.
Qed.

Lemma stable_after P c s : stable w P → P s → P (after w c s).
Proof.
  intros HS HP. rewrite perform_fst. destruct c as [n|].
  - by apply stable_get_encoding.
  - rewrite list_encoding_names_eq.
    destruct (ensured_verdict w s); by apply (stable_ensured _ _ HS).
Qed.

Lemma stable_run P calls : ∀ s, stable w P → P s → P (run w calls s).
Proof.
  induction calls as [|c calls IH]; intros s HS HP; [done|].
  simpl. apply IH; [done|]. by apply stable_after.
Qed.

Lemma stable_step_thread P tid m m' :
  stable w P → P (shared m) → step_thread w tid m = Some m' → P (shared m').
Proof.
  intros [He Hc Hp] HP Hstep. unfold step_thread in Hstep.
  destruct (threads m !! tid) as [[n p]|] eqn:Hth; [|done]. simpl in Hstep.
  destruct p as [| | | | | |enc|r|r]; try (by injection Hstep as <-).
  - destruct (lock_owner m); [done|]. by injection Hstep as <-.
  - rewrite ensure_constructors_eq in Hstep. injection Hstep as <-. simpl.
    by apply He.
  - destruct (ENCODING_CONSTRUCTORS (shared m)) as [d|] eqn:Hd.
    + pose proof (construct_cases w n _ _ Hd) as Hcs.
      destruct (construct w n (shared m)) as [s' r]. cbn [fst snd] in Hcs.
      injection Hstep as <-. simpl. by eapply Hc.
    + destruct (construct_unset n _ Hd) as [e Hcs]. rewrite Hcs in Hstep.
      by injection Hstep as <-.
  - injection Hstep as <-. simpl. by apply Hp.
  - done.
Qed.

Lemma stable_reachable P m m' :
  stable w P → P (shared m) → rtc (step w) m m' → P (shared m').
Proof.
  intros HS HP Hr. apply rtc_nsteps in Hr as [k Hr].
  revert m' Hr. induction k as [|k IH]; intros m' Hr.
  - by inversion Hr; subst.
  - apply nsteps_inv_r in Hr as (m1 & Hr & [tid Hstep]).
    eapply stable_step_thread; [done| |done]. by apply IH.
Qed.

End Stable.

Section StableProperties.

Variable w : World.

Lemma count_scan_imports (l : list string) : count is_scan (Import <$> l) = 0.
Proof. apply count_none, Forall_fmap, Forall_forall. by intros m _. Qed.

Lemma count_scan_scan_events s :
  count is_scan (scan_events s) = if plugin_modules_cache s is Some _ then 0 else 1.
Proof. unfold scan_events. by destruct (plugin_modules_cache s). Qed.

Lemma scanned_once_stable : stable w scanned_once.
Proof.
  unfold scanned_once. split.
  - intros s Hs. unfold ensured. destruct (ENCODING_CONSTRUCTORS s); [done|].
    simpl. rewrite !count_app, count_scan_imports, count_scan_scan_events, Hs.
    destruct (plugin_modules_cache s); lia.
  - intros n s s' r Hs Hc. inversion Hc; subst; simpl;
      rewrite count_app, ?count_cons, ?count_nil, ?count_scan_scan_events, Hs;
      simpl; destruct (plugin_modules_cache s); lia.
  - intros n enc s Hs. done.
Qed.

Lemma imports_app tr tr' : imports (tr ++ tr') = imports tr ++ imports tr'.
Proof. unfold imports. apply filter_app. Qed.

Lemma imports_scan_events s : imports (scan_events s) = [].
Proof. unfold scan_events. by destruct (plugin_modules_cache s). Qed.

Lemma imports_Import (l : list string) : imports (Import <$> l) = Import <$> l.
Proof.
  unfold imports. induction l as [|m l IH]; [done|].
  rewrite fmap_cons, filter_cons_True by done. by rewrite IH.
Qed.

Lemma imported_in_order_stable : stable w (imported_in_order w).
Proof.
  unfold imported_in_order. split.
  - intros s (Hs & Hp & Hn). unfold ensured.
    destruct (ENCODING_CONSTRUCTORS s) eqn:Hd;
      [split_and!; [done|done|intros; congruence]|].
    split_and!; [by unfold scanned in *| |done]. simpl.
    rewrite !imports_app, imports_scan_events, imports_Import, Hn by done.
    unfold built. rewrite Hs. simpl. rewrite fmap_take. apply prefix_take.
  - intros n s s' r (Hs & Hp & Hn) Hc.
    assert (imports (trace s') = imports (trace s) ∧
            scanned w s' = scanned w s ∧
            ENCODING_CONSTRUCTORS s' = ENCODING_CONSTRUCTORS s) as (-> & -> & ->).
    { inversion Hc; subst; simpl; rewrite imports_app;
        rewrite ?imports_scan_events; simpl; by rewrite app_nil_r. }
    done.
  - intros n enc s Hs. done.
Qed.

Lemma merge_items_NoDup mod_name items : ∀ d,
  NoDup (dict_keys d) → NoDup (dict_keys (merge_items mod_name items d).1).
Proof.
  induction items as [|[k f] items IH]; intros d Hd; simpl; [done|].
  destruct (dict_contains k d) eqn:Hk; [done|].
  apply dict_contains_false in Hk. apply IH.
  rewrite dict_set_fresh, dict_keys_app by done.
  apply NoDup_app. split_and!; [done| |apply NoDup_singleton].
  intros x Hx Hx'. apply list_elem_of_singleton in Hx'. by subst.
Qed.

Lemma merge_modules_NoDup mods : ∀ d,
  NoDup (dict_keys d) → NoDup (dict_keys (merge_modules w mods d).1.1).
Proof.
  induction mods as [|m mods IH]; intros d Hd; simpl; [done|].
  assert (NoDup (dict_keys (merge_module w m d).1)) as Hm.
  { unfold merge_module.
    destruct (import_module w m) as [[]|[[items|]]]; simpl; try done.
    by apply merge_items_NoDup. }
  destruct (merge_module w m d) as [d' [e|]]; [done|].
  specialize (IH d' Hm).
  by destruct (merge_modules w mods d') as [[d'' k] r].
Qed.

Lemma names_distinct_stable : stable w names_distinct.
Proof.
  unfold names_distinct. split.
  - intros s Hs d. unfold ensured.
    destruct (ENCODING_CONSTRUCTORS s) eqn:Hd; [by rewrite Hd; apply Hs|].
    simpl. intros [= <-]. apply merge_modules_NoDup. apply NoDup_nil_2.
  - intros n s s' r Hs Hc d.
    destruct (construct_spec_frame w n _ _ _ Hc) as [_ ->]. apply Hs.
  - intros n enc s Hs. done.
Qed.

Lemma factories_registered_stable : stable w factories_registered.
Proof.
  unfold factories_registered. split.
  - intros s Hs n f ok. unfold ensured.
    destruct (ENCODING_CONSTRUCTORS s) eqn:Hd; [rewrite Hd; by eapply Hs|].
    simpl. rewrite !elem_of_app. intros [Hin|[Hin|Hin]].
    + destruct (Hs n f ok Hin) as (d & Hd' & _). congruence.
    + unfold scan_events in Hin. destruct (plugin_modules_cache s).
      * by apply elem_of_nil in Hin.
      * by apply list_elem_of_singleton in Hin.
    + apply list_elem_of_fmap in Hin as (m & ? & _). done.
  - intros n s s' r Hs Hc n' f' ok'.
    inversion Hc; subst; simpl; rewrite elem_of_app; intros [Hin|Hin];
      try (by eapply Hs).
    + unfold scan_events in Hin. destruct (plugin_modules_cache s).
      * by apply elem_of_nil in Hin.
      * by apply list_elem_of_singleton in Hin.
    + apply list_elem_of_singleton in Hin. simplify_eq. eauto.
    + apply elem_of_cons in Hin as [Hin|Hin]; [simplify_eq; eauto|].
      by apply list_elem_of_singleton in Hin.
    + apply elem_of_cons in Hin as [Hin|Hin]; [simplify_eq; eauto|].
      by apply list_elem_of_singleton in Hin.
  - intros n enc s Hs. done.
Qed.

End StableProperties.

(** ** Further properties of the registry *)

(** X1.  The module scan is memoised: over any sequence of calls, and
    under any interleaving of threads started after it,
    [pkgutil.iter_modules] runs at most once; [_available_plugin_modules]
    always returns the modules of that scan, and once the slot is filled
    it returns them without touching the state. *)
Theorem scan_runs_at_most_once (w : World) (calls : list call) :
  let s := run w calls initial in
  count is_scan (trace s) ≤ 1 ∧
  (_available_plugin_modules w s).2 = inr (iter_modules w) ∧
  count is_scan (trace (_available_plugin_modules w s).1) = 1 ∧
  (plugin_modules_cache s ≠ None →
   _available_plugin_modules w s = (s, inr (iter_modules w))) ∧
  (∀ names m, rtc (step w) (spawn s names) m →
              count is_scan (trace (shared m)) ≤ 1).
Proof.
  intros s.
  assert (scanned_once s) as Hs
    by (by apply stable_run; [apply scanned_once_stable|]).
  pose proof (inv_scan _ _ (Inv_run w calls initial (Inv_initial w))) as Hm.
  fold s in Hm. unfold scanned_once in Hs.
  rewrite available_plugin_modules_eq, Hm. simpl.
  split_and!.
  - rewrite Hs. destruct (plugin_modules_cache s); lia.
  - done.
  - rewrite count_app, count_scan_scan_events, Hs.
    destruct (plugin_modules_cache s); lia.
  - intros Hc. f_equal. unfold scanned, scan_events in *.
    destruct (plugin_modules_cache s) eqn:Hp; [|done].
    apply State_eq; simpl; try done;
      [simpl in Hm; congruence|by rewrite app_nil_r].
  - intros names m Hr.
    assert (scanned_once (shared m)) as Hs'
      by (by eapply stable_reachable; [apply scanned_once_stable| |done]).
    unfold scanned_once in Hs'. rewrite Hs'.
    destruct (plugin_modules_cache (shared m)); lia.
Qed.

(** X2.  Plugin modules are imported in enumeration order and never
    twice: over any sequence of calls, and under any interleaving of
    threads started after it, the imports made so far are an initial
    stretch of the scanned module list. *)
Theorem imports_follow_the_scan (w : World) (calls : list call) :
  let s := run w calls initial in
  imports (trace s) `prefix_of` (Import <$> iter_modules w) ∧
  length (imports (trace s)) ≤ length (iter_modules w) ∧
  (ENCODING_CONSTRUCTORS s = None → imports (trace s) = []) ∧
  (∀ names m, rtc (step w) (spawn s names) m →
              imports (trace (shared m)) `prefix_of` (Import <$> iter_modules w)).
Proof.
  intros s.
  assert (imported_in_order w s) as (Hs & Hp & Hn).
  { apply stable_run; [apply imported_in_order_stable|].
    split_and!; [done|apply prefix_nil|done]. }
  split_and!; [done| |done|].
  - apply prefix_length in Hp. by rewrite length_fmap in Hp.
  - intros names m Hr.
    assert (imported_in_order w (shared m)) as (_ & Hp' & _); [|done].
    eapply stable_reachable; [apply imported_in_order_stable| |done].
    done.
Qed.

(** X3.  The constructor table never holds a name twice, whether the
    build succeeded or failed, and [list_encoding_names] never returns a
    name twice. *)
Theorem registered_names_are_distinct (w : World) (calls : list call) :
  let s := run w calls initial in
  NoDup (dict_keys (default [] (ENCODING_CONSTRUCTORS s))) ∧
  NoDup (match (list_encoding_names w s).2 with
         | inr names => names
         | inl _ => []
         end) ∧
  (∀ names m, rtc (step w) (spawn s names) m →
     NoDup (dict_keys (default [] (ENCODING_CONSTRUCTORS (shared m))))).
Proof.
  intros s.
  assert (∀ s0, names_distinct s0 →
            NoDup (dict_keys (default [] (ENCODING_CONSTRUCTORS s0)))) as Hnd.
  { intros s0 H0. destruct (ENCODING_CONSTRUCTORS s0) as [d|] eqn:Hd; simpl.
    - by apply H0.
    - apply NoDup_nil_2. }
  assert (names_distinct s) as Hs
    by (by apply stable_run; [apply names_distinct_stable|]).
  split_and!.
  - by apply Hnd.
  - rewrite list_encoding_names_eq.
    destruct (ensured_verdict w s); simpl; [apply NoDup_nil_2|].
    apply Hnd. by apply (stable_ensured _ _ (names_distinct_stable w)).
  - intros names m Hr. apply Hnd.
    by eapply stable_reachable; [apply names_distinct_stable| |done].
Qed.

(** X4.  The registry calls no factory but the one registered under the
    name asked for: every factory call in the log, over any sequence of
    calls and under any interleaving of threads started after it, is a
    call of the factory the table holds for that name. *)
Theorem only_registered_factories_run (w : World) (calls : list call) :
  let s := run w calls initial in
  (∀ n f ok, Factory n f ok ∈ trace s →
             dict_get n (default [] (ENCODING_CONSTRUCTORS s)) = Some f) ∧
  (∀ names m n f ok,
     rtc (step w) (spawn s names) m → Factory n f ok ∈ trace (shared m) →
     dict_get n (default [] (ENCODING_CONSTRUCTORS (shared m))) = Some f).
Proof.
  intros s.
  assert (factories_registered s) as Hs.
  { apply stable_run; [apply factories_registered_stable|].
    intros n f ok Hin. by apply elem_of_nil in Hin. }
  split.
  - intros n f ok Hin. destruct (Hs n f ok Hin) as (d & -> & Hf). done.
  - intros names m n f ok Hr Hin.
    assert (factories_registered (shared m)) as Hm
      by (by eapply stable_reachable; [apply factories_registered_stable| |done]).
    destruct (Hm n f ok Hin) as (d & -> & Hf). done.
Qed.

(** X5.  Only registered names are ever cached: over any sequence of
    calls, and under any interleaving of threads started after it, every
    name in [ENCODINGS] is a key of the constructor table; while the
    table is unset the cache is empty. *)
Theorem cached_names_are_registered (w : World) (calls : list call) :
  let s := run w calls initial in
  (∀ n, is_Some (ENCODINGS s !! n) →
        n ∈ dict_keys (default [] (ENCODING_CONSTRUCTORS s))) ∧
  (ENCODING_CONSTRUCTORS s = None → ENCODINGS s = ∅) ∧
  (∀ names m n, rtc (step w) (spawn s names) m →
     is_Some (ENCODINGS (shared m) !! n) →
     n ∈ dict_keys (default [] (ENCODING_CONSTRUCTORS (shared m)))).
Proof.
  intros s.
  pose proof (Inv_run w calls initial (Inv_initial w)) as HI. fold s in HI.
  split_and!.
  - intros n [enc Hn]. by destruct (inv_cache _ _ HI n enc Hn) as (d & -> & Hk).
  - intros Hd. apply map_empty. intros n.
    destruct (ENCODINGS s !! n) as [enc|] eqn:Hn; [|done].
    destruct (inv_cache _ _ HI n enc Hn) as (d & Hd' & _). congruence.
  - intros names m n Hr [enc Hn].
    pose proof (MInv_reachable w _ _ _ HI Hr) as HM.
    by destruct (minv_cache _ _ HM n enc Hn) as (d & -> & Hk).
Qed.

Section Further.

Variable w : World.

Lemma perform_inl c s s' e :
  perform w c s = (s', inl e) →
  match c with
  | Get_encoding n => get_encoding w n s = (s', inl e)
  | List_encoding_names => list_encoding_names w s = (s', inl e)
  end.
Proof.
  destruct c as [n|]; unfold perform; run_monad.
  - destruct (get_encoding w n s) as [s0 [e0|enc]]; by intros [= -> ->].
  - destruct (list_encoding_names w s) as [s0 [e0|l]]; by intros [= -> ->].
Qed.

Lemma take_first_failure {A} (pre : list A) m post :
  take (length pre + 1) (pre ++ m :: post) = pre ++ [m].
Proof. induction pre as [|x pre IH]; simpl; [done|]. by rewrite IH. Qed.

(** The build in a world whose first failing module is [m]. *)
Lemma merge_modules_first_failure pre m post failure :
  (∀ m', m' ∈ pre → well_formed w m') →
  NoDup (dict_keys (contributed w pre)) →
  (import_module w m = inl failure ∨
   (import_module w m = inr (mkModule None) ∧
    failure = AttributeError "ENCODING_CONSTRUCTORS")) →
  merge_modules w (pre ++ m :: post) [] =
    (contributed w pre, length pre + 1, Some (reported m failure)).
Proof.
  intros Hwf Hnd Hm.
  rewrite merge_modules_app, merge_modules_ok by done. simpl.
  unfold merge_module.
  destruct Hm as [->|[-> ->]]; [by destruct failure|done].
Qed.

End Further.

(** ** The exceptions the registry raises *)

Section Reporting.

Variable w : World.

(** Before the build nothing is cached. *)
Lemma Inv_unbuilt s n :
  Inv w s → ENCODING_CONSTRUCTORS s = None → ENCODINGS s !! n = None.
Proof.
  intros HI Hd. destruct (ENCODINGS s !! n) as [enc|] eqn:Hn; [|done].
  destruct (inv_cache _ _ HI n enc Hn) as (d0 & Hd0 & _). congruence.
Qed.

(** A build that raises makes the public operation that started it raise
    the same exception. *)
Lemma build_raises_intro s d k e :
  Inv w s →
  ENCODING_CONSTRUCTORS s = None →
  merge_modules w (iter_modules w) [] = (d, k, Some e) →
  build_raises w s e.
Proof.
  intros HI Hd Hb.
  assert (built w s = (d, k, Some e)) as Hbs
    by (unfold built; by rewrite (inv_scan _ _ HI)).
  assert (ensured w s = after_build w s) as He
    by (unfold ensured; by rewrite Hd).
  assert (ensured_verdict w s = inl e) as Hv
    by (unfold ensured_verdict; by rewrite Hd, Hbs).
  exists (after_build w s). split.
  - rewrite find_constructors_eq, Hbs by done. done.
  - intros c. apply perform_raises. destruct c as [n|].
    + rewrite get_encoding_miss, Hv, He by (by apply Inv_unbuilt). done.
    + rewrite list_encoding_names_eq, Hv, He. done.
Qed.

(** What a build can raise. *)
Lemma merge_modules_raises mods : ∀ d e,
  (merge_modules w mods d).2 = Some e →
  (∃ m, m ∈ mods ∧ e = ValueError (malformed_msg m)) ∨
  (∃ m x, m ∈ mods ∧ e = ValueError (duplicate_msg x m)) ∨
  (∃ m, m ∈ mods ∧ import_module w m = inl e ∧ ∀ msg, e ≠ AttributeError msg).
Proof.
  induction mods as [|m mods IH]; intros d e; simpl; [done|].
  destruct (merge_module w m d) as [d' [e'|]] eqn:Hm; simpl.
  - intros [= ->]. unfold merge_module in Hm.
    destruct (import_module w m) as [e0|[[items|]]] eqn:Hi; simpl in Hm.
    + destruct e0; simplify_eq;
        try (by left; exists m; split; [left|]);
        right; right; exists m; (split_and!; [left|done|done]).
    + destruct (merge_items_error m items d e) as [x ->]; [by rewrite Hm|].
      right; left. exists m, x. split; [left|done].
    + simplify_eq. left. exists m. split; [left|done].
  - destruct (merge_modules w mods d') as [[d'' k] r] eqn:Hr. simpl.
    intros ->.
    destruct (IH d' e) as [(m' & ? & ?)|[(m' & x & ? & ?)|(m' & ? & ? & ?)]];
      [by rewrite Hr|..].
    + left. exists m'. split; [by right|done].
    + right; left. exists m', x. split; [by right|done].
    + right; right. exists m'. split_and!; [by right|done|done].
Qed.

(** A miss on a name that is not registered. *)
Lemma get_encoding_unknown n s s1 d :
  Inv w s →
  ensure_constructors w s = (s1, inr tt) →
  ENCODING_CONSTRUCTORS s1 = Some d →
  n ∉ dict_keys d →
  ∃ s', get_encoding w n s =
          (s', inl (ValueError (unknown_msg n (iter_modules w)))).
Proof.
  intros HI He Hd Hk.
  apply ensure_constructors_inv in He as [-> Hv].
  assert (ENCODINGS s !! n = None) as Hn.
  { destruct (ENCODINGS s !! n) as [enc|] eqn:Hn; [|done].
    destruct (inv_cache _ _ HI n enc Hn) as (d0 & Hd0 & Hk0).
    destruct (ensured_built w s d0 Hd0) as [He _]. rewrite He in Hd.
    by simplify_eq. }
  pose proof (construct_cases w n _ d Hd) as Hc.
  pose proof (inv_scan _ _ (Inv_ensured w s HI)) as Hs.
  rewrite get_encoding_miss, <- Hv by done.
  destruct (construct w n (ensured w s)) as [s2 r]. simpl in Hc.
  apply dict_get_None in Hk.
  inversion Hc; same_lhs. eexists. by rewrite Hs.
Qed.

End Reporting.

(** C10.  In any state a sequence of calls leaves with the table not yet
    built: when the first module that fails has no
    [ENCODING_CONSTRUCTORS] (or its import raises [AttributeError]), the
    build and either public operation raise [ValueError] with the
    malformed-plugin message; when it registers a name an earlier module
    registered, they raise [ValueError] with the duplicate message; when
    its import raises [ImportError], they raise that [ImportError] as it
    is.  [get_encoding] of a name that is not registered raises
    [ValueError] with the unknown-encoding message.  The three
    [ValueError]s are of one class and differ in the message only, and a
    build raises nothing but one of the first two or what an import
    raised. *)
Theorem registry_errors_are_ValueError (w : World) (calls : list call) :
  let s := run w calls initial in
  (∀ pre m post,
     ENCODING_CONSTRUCTORS s = None → loads_up_to w pre m post →
     (import_module w m = inr (mkModule None) ∨
      ∃ msg, import_module w m = inl (AttributeError msg)) →
     build_raises w s (ValueError (malformed_msg m))) ∧
  (∀ pre m post its1 x f1 f2 its2,
     ENCODING_CONSTRUCTORS s = None → loads_up_to w pre m post →
     import_module w m = inr (mkModule (Some (its1 ++ (x, f2) :: its2))) →
     NoDup (dict_keys (contributed w pre ++ its1)) →
     dict_get x (contributed w pre) = Some f1 →
     build_raises w s (ValueError (duplicate_msg x m))) ∧
  (∀ n s1 d,
     ensure_constructors w s = (s1, inr tt) →
     ENCODING_CONSTRUCTORS s1 = Some d → n ∉ dict_keys d →
     ∃ s', get_encoding w n s =
             (s', inl (ValueError (unknown_msg n (iter_modules w))))) ∧
  (∀ pre m post msg,
     ENCODING_CONSTRUCTORS s = None → loads_up_to w pre m post →
     import_module w m = inl (ImportError msg) →
     build_raises w s (ImportError msg)) ∧
  (∀ m x m' n mods msg,
     class_name (ValueError (malformed_msg m)) = "ValueError" ∧
     class_name (ValueError (duplicate_msg x m')) = "ValueError" ∧
     class_name (ValueError (unknown_msg n mods)) = "ValueError" ∧
     class_name (ImportError msg) = "ImportError") ∧
  (∀ s' e, _find_constructors w s = (s', inl e) →
     (∃ m, m ∈ iter_modules w ∧ e = ValueError (malformed_msg m)) ∨
     (∃ m x, m ∈ iter_modules w ∧ e = ValueError (duplicate_msg x m)) ∨
     (∃ m, m ∈ iter_modules w ∧ import_module w m = inl e ∧
           ∀ msg, e ≠ AttributeError msg)).
Proof.
  intros s.
  pose proof (Inv_run w calls initial (Inv_initial w)) as HI. fold s in HI.
  split_and!.
  - intros pre m post Hd (Hmods & Hwf & Hnd) Hm.
    eapply (build_raises_intro w s _ _ _ HI Hd). rewrite Hmods.
    destruct Hm as [Hm|[msg Hm]].
    + apply (merge_modules_first_failure w pre m post
               (AttributeError "ENCODING_CONSTRUCTORS") Hwf Hnd). by right.
    + apply (merge_modules_first_failure w pre m post
               (AttributeError msg) Hwf Hnd). by left.
  - intros pre m post its1 x f1 f2 its2 Hd (Hmods & Hwf & _) Hm Hnd Hx.
    eapply (build_raises_intro w s _ _ _ HI Hd). rewrite Hmods.
    by eapply merge_modules_clash.
  - intros n s1 d He Hd Hk. by eapply get_encoding_unknown.
  - intros pre m post msg Hd (Hmods & Hwf & Hnd) Hm.
    eapply (build_raises_intro w s _ _ _ HI Hd). rewrite Hmods.
    apply (merge_modules_first_failure w pre m post (ImportError msg) Hwf Hnd).
    by left.
  - done.
  - intros s' e Hf.
    destruct (ENCODING_CONSTRUCTORS s) as [d|] eqn:Hd.
    { by rewrite (find_constructors_built w s d) in Hf. }
    rewrite find_constructors_eq in Hf by done. injection Hf as _ Hv.
    unfold built in Hv. rewrite (inv_scan _ _ HI) in Hv.
    destruct (merge_modules w (iter_modules w) []) as [[d k] [e'|]] eqn:Hm;
      [|done].
    injection Hv as ->.
    apply (merge_modules_raises w (iter_modules w) [] e). by rewrite Hm.
Qed.

Lemma registry_errors_are_ValueError_witness :
  build_raises malformed_plugin initial
    (ValueError "tiktoken plugin tiktoken_ext.b does not define ENCODING_CONSTRUCTORS") ∧
  build_raises clashing_plugins initial
    (ValueError "Duplicate encoding name x in tiktoken plugin tiktoken_ext.b") ∧
  (∃ s', get_encoding two_plugins "q" initial =
           (s', inl (ValueError
              "Unknown encoding q. Plugins found: ['tiktoken_ext.a', 'tiktoken_ext.b']"))) ∧
  build_raises broken_import initial (ImportError "cannot import name 'blobfile'").
Proof.
  assert (∀ w : World, ∀ its,
            import_module w "tiktoken_ext.a" = inr (mkModule (Some its)) →
            ∀ m', m' ∈ ["tiktoken_ext.a"] → well_formed w m') as Hwf.
  { intros w its Hi m' ->%list_elem_of_singleton. by exists its. }
  split_and!.
  - apply (proj1 (registry_errors_are_ValueError malformed_plugin [])
             ["tiktoken_ext.a"] "tiktoken_ext.b" ["tiktoken_ext.c"]);
      [reflexivity| |left; reflexivity].
    split_and!; [reflexivity|by eapply Hwf|].
    exact (bool_decide_unpack (NoDup ["x"]) I).
  - apply (proj1 (proj2 (registry_errors_are_ValueError clashing_plugins []))
             ["tiktoken_ext.a"] "tiktoken_ext.b" [] [("z", 3)] "x" 1 4 []);
      [reflexivity| |reflexivity| |reflexivity].
    + split_and!; [reflexivity|by eapply Hwf|].
      exact (bool_decide_unpack (NoDup ["x"; "y"]) I).
    + exact (bool_decide_unpack (NoDup ["x"; "y"; "z"]) I).
  - apply (proj1 (proj2 (proj2 (registry_errors_are_ValueError two_plugins [])))
             "q" (ensure_constructors two_plugins initial).1
             [("x", 1); ("y", 2); ("z", 3)]); [reflexivity..|].
    exact (bool_decide_unpack ("q" ∉ ["x"; "y"; "z"]) I).
  - apply (proj1 (proj2 (proj2 (proj2
             (registry_errors_are_ValueError broken_import []))))
             ["tiktoken_ext.a"] "tiktoken_ext.b" [] "cannot import name 'blobfile'");
      [reflexivity| |reflexivity].
    split_and!; [reflexivity|by eapply Hwf|].
    exact (bool_decide_unpack (NoDup ["x"]) I).
Defined.

(** A call that raises, in a world without callbacks. *)
Lemma raising_call_plain (w : World) (c : call) (s s' : State) (e : exn) :
  perform w c s = (s', inl e) →
  ENCODINGS s' = ENCODINGS s ∧
  (∀ d, ENCODING_CONSTRUCTORS s = Some d → ENCODING_CONSTRUCTORS s' = Some d).
Proof.
  intros Hp. apply perform_inl in Hp.
  assert (∀ d, ENCODING_CONSTRUCTORS s = Some d → ensured w s = s) as He
    by (intros d Hd; by apply (ensured_built w s d)).
  destruct c as [n|].
  - destruct (ENCODINGS s !! n) as [enc|] eqn:Hn.
    { by rewrite (get_encoding_hit w n s enc Hn) in Hp. }
    pose proof (get_encoding_miss_cases w n s Hn) as Hc. rewrite Hp in Hc.
    cbn [fst snd] in Hc. inversion Hc; subst.
    + split; [apply ensured_ENCODINGS|]. intros d Hd. by rewrite (He d Hd).
    + match goal with H : construct_spec _ _ _ _ _ |- _ =>
        destruct (construct_spec_frame w n _ _ _ H) as [-> ->] end.
      split; [apply ensured_ENCODINGS|]. intros d Hd. by rewrite (He d Hd).
  - rewrite list_encoding_names_eq in Hp.
    destruct (ensured_verdict w s); simplify_eq.
    split; [apply ensured_ENCODINGS|]. intros d Hd. by rewrite (He d Hd).
Qed.





(** X8.  The build stops at the first module that fails.  When the
    modules before it are well formed with distinct names, and it does
    not import or has no [ENCODING_CONSTRUCTORS], the build raises the
    import's exception as it is, or [ValueError] naming the module when
    the exception is an [AttributeError]; the table holds what the
    modules before it contributed; and the modules after it are not
    imported, then or by any later call. *)
Theorem build_stops_at_first_failure (w : World) (calls : list call)
    (pre post : list string) (m : string) (failure : exn) :
  let s := run w calls initial in
  ENCODING_CONSTRUCTORS s = None →
  iter_modules w = pre ++ m :: post →
  (∀ m', m' ∈ pre → well_formed w m') →
  NoDup (dict_keys (contributed w pre)) →
  (import_module w m = inl failure ∨
   (import_module w m = inr (mkModule None) ∧
    failure = AttributeError "ENCODING_CONSTRUCTORS")) →
  ∃ s', _find_constructors w s = (s', inl (reported m failure)) ∧
        ENCODING_CONSTRUCTORS s' = Some (contributed w pre) ∧
        ∀ calls', imports (trace (run w calls' s')) = Import <$> (pre ++ [m]).
Proof.
  intros s Hd Hmods Hwf Hnd Hm.
  pose proof (Inv_run w calls initial (Inv_initial w)) as HI. fold s in HI.
  assert (imported_in_order w s) as (_ & _ & Hn).
  { apply stable_run; [apply imported_in_order_stable|].
    split_and!; [done|apply prefix_nil|done]. }
  assert (built w s = (contributed w pre, length pre + 1,
                       Some (reported m failure))) as Hb.
  { unfold built. rewrite (inv_scan _ _ HI), Hmods.
    by apply merge_modules_first_failure. }
  exists (after_build w s).
  assert (ENCODING_CONSTRUCTORS (after_build w s) = Some (contributed w pre))
    as Hd' by (simpl; by rewrite Hb).
  split_and!; [by rewrite find_constructors_eq, Hb| done |].
  intros calls'. destruct (run_built w calls' _ _ Hd') as [_ ->]. simpl.
  rewrite !imports_app, imports_scan_events, imports_Import, Hn, Hb by done.
  simpl. by rewrite (inv_scan _ _ HI), Hmods, take_first_failure.
Qed.

Lemma build_stops_at_first_failure_witness :
  ∃ s', _find_constructors malformed_plugin initial =
          (s', inl (ValueError (malformed_msg "tiktoken_ext.b"))) ∧
        ENCODING_CONSTRUCTORS s' =
          Some (contributed malformed_plugin ["tiktoken_ext.a"]) ∧
        ∀ calls', imports (trace (run malformed_plugin calls' s')) =
                    Import <$> (["tiktoken_ext.a"] ++ ["tiktoken_ext.b"]).
Proof.
  apply (build_stops_at_first_failure malformed_plugin []
           ["tiktoken_ext.a"] ["tiktoken_ext.c"] "tiktoken_ext.b"
           (AttributeError "ENCODING_CONSTRUCTORS"));
    [reflexivity|reflexivity| | |right; split; reflexivity].
  - intros m Hm. apply list_elem_of_singleton in Hm as ->.
    eexists; reflexivity.
  - exact (bool_decide_unpack (NoDup ["x"]) I).
Defined.



(** X10.  Mutual exclusion: however the threads are interleaved, at most
    one of them is between acquiring [_lock] at line 65 and leaving the
    [with] block, and it is the one recorded as the owner. *)
Theorem lock_excludes_other_threads (w : World) (calls : list call)
    (names : list string) (m : Machine) :
  rtc (step w) (spawn (run w calls initial) names) m →
  ∀ tid tid' th th',
    threads m !! tid = Some th → threads m !! tid' = Some th' →
    holds_lock (th_pc th) = true → holds_lock (th_pc th') = true →
    tid = tid' ∧ lock_owner m = Some tid.
Proof.
  intros Hr tid tid' th th' Hth Hth' Hl Hl'.
  pose proof (MInv_reachable w _ _ _
                (Inv_run w calls initial (Inv_initial w)) Hr) as HI.
  apply (minv_lock _ _ HI tid th Hth) in Hl.
  apply (minv_lock _ _ HI tid' th' Hth') in Hl'.
  split; [congruence|done].
Qed.

Lemma lock_excludes_other_threads_witness :
  holds_lock (th_pc (mkThread "x" (At_publish (mkEncoding 4 [("name", "enc")]))))
    = true ∧
  threads building !! 1 = Some (mkThread "x" At_acquire) ∧
  (0 = 0 ∧ lock_owner building = Some 0).
Proof.
  assert (rtc (step two_plugins)
            (spawn (run two_plugins [] initial) ["x"; "x"]) building) as Hr.
  { apply (exec_reachable two_plugins [0; 1; 0; 0; 0; 0]). reflexivity. }
  split; [reflexivity|split; [reflexivity|]].
  apply (lock_excludes_other_threads two_plugins [] ["x"; "x"] building Hr
           0 0 (mkThread "x" (At_publish (mkEncoding 4 [("name", "enc")])))
           (mkThread "x" (At_publish (mkEncoding 4 [("name", "enc")]))));
    reflexivity.
Defined.

(** X11.  The fast path never waits for the lock: a thread asking for a
    cached name returns the cached object in two steps, whoever holds the
    lock, and changes neither the shared state nor the lock. *)
Theorem fast_path_never_blocks (w : World) (tid : nat) (n : string)
    (enc : Encoding) (m : Machine) :
  threads m !! tid = Some (mkThread n At_fast_test) →
  ENCODINGS (shared m) !! n = Some enc →
  exec w [tid; tid] m =
    Some (moved tid n (Finished (inr enc)) (shared m) (lock_owner m) m).
Proof.
  intros Hth Hn.
  assert (step_thread w tid m =
            Some (moved tid n At_fast_return (shared m) (lock_owner m) m)) as H1.
  { unfold step_thread. rewrite Hth. simpl. by rewrite Hn. }
  assert (step_thread w tid
            (moved tid n At_fast_return (shared m) (lock_owner m) m) =
            Some (moved tid n (Finished (inr enc)) (shared m) (lock_owner m) m))
    as H2.
  { unfold step_thread. simpl. rewrite (lookup_update_eq _ _ _ _ Hth). simpl.
    rewrite Hn. unfold goto, moved. simpl. by rewrite list_insert_insert_eq. }
  simpl. rewrite H1. simpl. by rewrite H2.
Qed.

Lemma fast_path_never_blocks_witness :
  lock_owner waiting = Some 0 ∧
  exec two_plugins [1; 1] waiting =
    Some (moved 1 "x" (Finished (inr (mkEncoding 4 [("name", "enc")])))
            (shared waiting) (lock_owner waiting) waiting).
Proof.
  split; [reflexivity|].
  apply (fast_path_never_blocks two_plugins 1 "x"
           (mkEncoding 4 [("name", "enc")]) waiting); reflexivity.
Defined.

Section Uninterrupted.

Variable w : World.

Lemma moved_moved tid n p1 s1 o1 p2 s2 o2 m :
  moved tid n p2 s2 o2 (moved tid n p1 s1 o1 m) = moved tid n p2 s2 o2 m.
Proof. unfold moved. simpl. by rewrite list_insert_insert_eq. Qed.

Lemma moved_same tid n p m :
  threads m !! tid = Some (mkThread n p) →
  moved tid n p (shared m) (lock_owner m) m = m.
Proof.
  intros Hth. destruct m as [s o ts]. unfold moved. simpl in *.
  by rewrite list_insert_id.
Qed.

Lemma step_thread_next tid n p m :
  threads m !! tid = Some (mkThread n p) →
  step_thread w tid m =
    place tid n m <$> next w tid n (p, shared m, lock_owner m).
Proof.
  intros Hth. unfold step_thread, next, place. rewrite Hth. simpl.
  destruct p; try done.
  - by destruct (lock_owner m).
  - by destruct (ensure_constructors w (shared m)).
  - by destruct (construct w n (shared m)).
Qed.

Lemma exec_replicate tid n k : ∀ p m,
  threads m !! tid = Some (mkThread n p) →
  exec w (replicate k tid) m =
    place tid n m <$> iterate w tid n k (p, shared m, lock_owner m).
Proof.
  induction k as [|k IH]; intros p m Hth.
  - simpl. unfold place. simpl. by rewrite moved_same.
  - cbn [replicate exec iterate]. rewrite (step_thread_next tid n p m Hth).
    destruct (next w tid n (p, shared m, lock_owner m)) as [[[p1 s1] o1]|];
      simpl; [|done].
    unfold place at 1. simpl.
    rewrite (IH p1) by (by eapply lookup_update_eq). simpl.
    destruct (iterate w tid n k (p1, s1, o1)) as [[[p2 s2] o2]|];
      simpl; [|done].
    unfold place. simpl. by rewrite moved_moved.
Qed.

(** From line 62 with the lock free, the steps of a thread add up to
    [get_encoding]. *)
Lemma iterate_get_encoding tid n s :
  ∃ k, iterate w tid n k (At_fast_test, s, None) =
         Some (Finished (get_encoding w n s).2, (get_encoding w n s).1, None).
Proof.
  destruct (ENCODINGS s !! n) as [enc|] eqn:Hn.
  - exists 2. rewrite (get_encoding_hit w n s enc Hn).
    cbn [iterate next mbind option_bind]. rewrite Hn.
    by cbn [iterate next mbind option_bind].
  - rewrite get_encoding_miss by done.
    destruct (ensured_verdict w s) as [e|[]] eqn:Hv.
    { exists 5. cbn [iterate next mbind option_bind]. rewrite Hn.
      cbn [iterate next mbind option_bind]. rewrite Hn.
      cbn [iterate next mbind option_bind].
      by rewrite ensure_constructors_eq, Hv. }
    destruct (construct w n (ensured w s)) as [s2 [e|enc]] eqn:Hc.
    + exists 6. cbn [iterate next mbind option_bind]. rewrite Hn.
      cbn [iterate next mbind option_bind]. rewrite Hn.
      cbn [iterate next mbind option_bind].
      rewrite ensure_constructors_eq, Hv.
      cbn [iterate next mbind option_bind outcome]. by rewrite Hc.
    + exists 7. cbn [iterate next mbind option_bind]. rewrite Hn.
      cbn [iterate next mbind option_bind]. rewrite Hn.
      cbn [iterate next mbind option_bind].
      rewrite ensure_constructors_eq, Hv.
      cbn [iterate next mbind option_bind outcome]. by rewrite Hc.
Qed.

End Uninterrupted.

(** X12.  A thread that runs without interruption from line 62 while
    the lock is free does what the sequential [get_encoding] does: some
    number of its steps in a row takes it to the end, leaving the lock
    free, the state [get_encoding] leaves and the thread holding what
    [get_encoding] returns or raises. *)
Theorem uninterrupted_thread_runs_get_encoding (w : World) (tid : nat)
    (n : string) (m : Machine) :
  threads m !! tid = Some (mkThread n At_fast_test) →
  lock_owner m = None →
  ∃ k, exec w (replicate k tid) m =
         Some (moved tid n
                 (Finished (get_encoding w n (shared m)).2)
                 (get_encoding w n (shared m)).1 None m).
Proof.
  intros Hth Ho.
  destruct (iterate_get_encoding w tid n (shared m)) as [k Hk].
  exists k. rewrite (exec_replicate w tid n k _ m Hth), Ho, Hk. done.
Qed.

Lemma uninterrupted_thread_runs_get_encoding_witness :
  ∃ k, exec two_plugins (replicate k 1) (spawn initial ["x"; "y"]) =
         Some (moved 1 "y"
                 (Finished (get_encoding two_plugins "y" initial).2)
                 (get_encoding two_plugins "y" initial).1 None
                 (spawn initial ["x"; "y"])).
Proof.
  apply (uninterrupted_thread_runs_get_encoding two_plugins 1 "y"
           (spawn initial ["x"; "y"])); reflexivity.
Defined.

Section Objects.

Variable w : World.

Lemma ensured_trace_length s : length (trace s) ≤ length (trace (ensured w s)).
Proof.
  unfold ensured. destruct (ENCODING_CONSTRUCTORS s); [done|]. simpl.
  rewrite length_app. lia.
Qed.

Lemma objects_fresh_longer s s' :
  ENCODINGS s' = ENCODINGS s → length (trace s) ≤ length (trace s') →
  objects_fresh s → objects_fresh s'.
Proof.
  intros Hc Hl [Hf Hd]. split; rewrite Hc; [|done].
  intros n enc Hn. specialize (Hf n enc Hn). lia.
Qed.

Lemma objects_fresh_get_encoding n s :
  objects_fresh s → objects_fresh (get_encoding w n s).1.
Proof.
  intros HF. destruct (ENCODINGS s !! n) as [enc|] eqn:Hn.
  { by rewrite (get_encoding_hit w n s enc). }
  pose proof (ensured_trace_length s) as Hl.
  destruct (get_encoding_miss_cases w n s Hn) as [e He|s2 e He Hc|s2 enc He Hc].
  - eapply objects_fresh_longer; [apply ensured_ENCODINGS|done|done].
  - destruct (construct_spec_frame w n _ _ _ Hc) as [Hcache _].
    eapply objects_fresh_longer; [|
      |done]; [by rewrite Hcache, ensured_ENCODINGS|].
    inversion Hc; subst; simpl; rewrite length_app; lia.
  - inversion Hc; subst. destruct HF as [Hf Hd].
    assert (ENCODINGS (ensured w s) = ENCODINGS s) as Hcache
      by apply ensured_ENCODINGS.
    split; simpl; rewrite Hcache, ?length_app; simpl.
    + intros n' enc'. destruct (decide (n = n')) as [<-|Hne].
      * rewrite lookup_insert_eq. intros [= <-]. simpl. lia.
      * rewrite lookup_insert_ne by done. intros Hn'.
        specialize (Hf n' enc' Hn'). lia.
    + intros n1 n2 enc1 enc2.
      destruct (decide (n = n1)) as [<-|Hne1];
        destruct (decide (n = n2)) as [<-|Hne2]; try done.
      * rewrite lookup_insert_eq, lookup_insert_ne by done.
        intros [= <-] Hn2. simpl. specialize (Hf n2 enc2 Hn2). lia.
      * rewrite lookup_insert_eq, lookup_insert_ne by done.
        intros Hn1 [= <-]. simpl. specialize (Hf n1 enc1 Hn1). lia.
      * rewrite !lookup_insert_ne by done. apply Hd.
Qed.

Lemma objects_fresh_run calls : ∀ s, objects_fresh s → objects_fresh (run w calls s).
Proof.
  induction calls as [|c calls IH]; intros s HF; [done|].
  simpl. apply IH. rewrite perform_fst. destruct c as [n|].
  - by apply objects_fresh_get_encoding.
  - rewrite list_encoding_names_eq.
    destruct (ensured_verdict w s);
      (eapply objects_fresh_longer;
       [apply ensured_ENCODINGS|apply ensured_trace_length|done]).
Qed.

End Objects.

(** X13.  Every construction makes a new object: over any sequence of
    calls, two different names in the cache are bound to two different
    objects. *)
Theorem names_never_share_an_object (w : World) (calls : list call)
    (n n' : string) (enc enc' : Encoding) :
  let s := run w calls initial in
  ENCODINGS s !! n = Some enc → ENCODINGS s !! n' = Some enc' →
  n ≠ n' → enc_id enc ≠ enc_id enc'.
Proof.
  intros s Hn Hn' Hne Hid.
  assert (objects_fresh s) as [_ Hd].
  { apply objects_fresh_run. split; intros ?; intros; by simplify_map_eq. }
  by apply Hne, (Hd n n' enc enc').
Qed.

Lemma names_never_share_an_object_witness :
  enc_id (mkEncoding 4 [("name", "enc")]) ≠
  enc_id (mkEncoding 6 [("name", "enc")]).
Proof.
  apply (names_never_share_an_object two_plugins
           [Get_encoding "x"; Get_encoding "y"] "x" "y"
           (mkEncoding 4 [("name", "enc")]) (mkEncoding 6 [("name", "enc")]));
    [reflexivity|reflexivity|discriminate].
Defined.

Section FirstCall.

Variable w : World.

(** The first call starts by building the table; what holds after the
    build and is stable holds after the call. *)
Lemma stable_first_call P c :
  stable w P → P (ensured w initial) → P (after w c initial).
Proof.
  intros [He Hc Hp] HP. rewrite perform_fst. destruct c as [n|].
  - destruct (get_encoding_miss_cases w n initial eq_refl); eauto.
  - rewrite list_encoding_names_eq. by destruct (ensured_verdict w initial).
Qed.

Lemma loaded_stable T I :
  stable w (λ s, ENCODING_CONSTRUCTORS s = Some T ∧ imports (trace s) = I ∧
                 plugin_modules_cache s ≠ None).
Proof.
  split.
  - intros s (Hd & Hi & Hm). by rewrite (proj1 (ensured_built w s T Hd)).
  - intros n s s' r (Hd & Hi & Hm) Hc.
    inversion Hc; subst; simpl; rewrite imports_app, ?imports_scan_events;
      simpl; by rewrite app_nil_r.
  - done.
Qed.

End FirstCall.

(** X14.  When every plugin is well formed and no name is registered
    twice, the first call of either public operation scans once, imports
    every plugin module, once each and in enumeration order, and sets the
    table to all the contributed items; no later call scans or imports
    anything. *)
Theorem first_call_loads_every_plugin (w : World) (c : call)
    (calls : list call) :
  (∀ m, m ∈ iter_modules w → well_formed w m) →
  NoDup (dict_keys (contributed w (iter_modules w))) →
  let s := run w (c :: calls) initial in
  imports (trace s) = Import <$> iter_modules w ∧
  count is_scan (trace s) = 1 ∧
  ENCODING_CONSTRUCTORS s = Some (contributed w (iter_modules w)).
Proof.
  intros Hwf Hnd s.
  pose proof (build_ok w Hwf Hnd) as Hb.
  assert (built w initial =
            (contributed w (iter_modules w), length (iter_modules w), None))
    as Hbi by apply Hb.
  assert (ENCODING_CONSTRUCTORS s = Some (contributed w (iter_modules w)) ∧
          imports (trace s) = Import <$> iter_modules w ∧
          plugin_modules_cache s ≠ None) as (Hd & Hi & Hm).
  { apply (stable_run w _ calls (after w c initial) (loaded_stable w _ _)).
    apply (stable_first_call w _ c (loaded_stable w _ _)).
    change (ensured w initial) with (after_build w initial). simpl.
    rewrite Hbi. simpl. split_and!; [done| |done].
    unfold scanned. simpl. rewrite firstn_all. unfold imports at 1.
    rewrite filter_cons_False by done. apply imports_Import. }
  assert (scanned_once s) as Hs
    by (by apply stable_run; [apply scanned_once_stable|]).
  unfold scanned_once in Hs.
  split_and!; [done| |done].
  rewrite Hs. by destruct (plugin_modules_cache s).
Qed.

Lemma first_call_loads_every_plugin_witness :
  let s := run two_plugins [Get_encoding "nope"; List_encoding_names] initial in
  imports (trace s) = Import <$> iter_modules two_plugins ∧
  count is_scan (trace s) = 1 ∧
  ENCODING_CONSTRUCTORS s =
    Some (contributed two_plugins (iter_modules two_plugins)).
Proof.
  apply (first_call_loads_every_plugin two_plugins (Get_encoding "nope")
           [List_encoding_names]).
  - intros m Hm. simpl in Hm. apply elem_of_cons in Hm as [->|Hm];
      [eexists; reflexivity|].
    apply elem_of_cons in Hm as [->|Hm]; [eexists; reflexivity|].
    by apply elem_of_nil in Hm.
  - exact (bool_decide_unpack (NoDup ["x"; "y"; "z"]) I).
Defined.

(** ** The machine [interleaved] as an instance *)

Lemma interleaved_reachable :
  rtc (step two_plugins) (spawn (run two_plugins [] initial) ["x"; "x"])
    interleaved.
Proof.
  apply (exec_reachable two_plugins [0; 1; 0; 0; 0; 0; 0; 0; 1; 1; 1]).
  reflexivity.
Qed.

Lemma scan_runs_at_most_once_witness :
  count is_scan (trace (shared interleaved)) ≤ 1.
Proof.
  apply (proj2 (proj2 (proj2 (proj2 (scan_runs_at_most_once two_plugins []))))
           ["x"; "x"] interleaved interleaved_reachable).
Defined.

Lemma imports_follow_the_scan_witness :
  imports (trace (shared interleaved)) `prefix_of`
    (Import <$> iter_modules two_plugins).
Proof.
  apply (proj2 (proj2 (proj2 (imports_follow_the_scan two_plugins [])))
           ["x"; "x"] interleaved interleaved_reachable).
Defined.

Lemma registered_names_are_distinct_witness :
  NoDup (dict_keys (default [] (ENCODING_CONSTRUCTORS (shared interleaved)))).
Proof.
  apply (proj2 (proj2 (registered_names_are_distinct two_plugins []))
           ["x"; "x"] interleaved interleaved_reachable).
Defined.

Lemma only_registered_factories_run_witness :
  dict_get "x" (default [] (ENCODING_CONSTRUCTORS (shared interleaved))) = Some 1.
Proof.
  apply (proj2 (only_registered_factories_run two_plugins [])
           ["x"; "x"] interleaved "x" 1 true interleaved_reachable).
  exact (bool_decide_unpack
           (Factory "x" 1 true ∈ trace (shared interleaved)) I).
Defined.

Lemma cached_names_are_registered_witness :
  "x" ∈ dict_keys (default [] (ENCODING_CONSTRUCTORS (shared interleaved))).
Proof.
  apply (proj2 (proj2 (cached_names_are_registered two_plugins []))
           ["x"; "x"] interleaved "x" interleaved_reachable).
  eexists. reflexivity.
Defined.
